(** * URDF-Architect: the prompt adapter of [src/services/geminiService.ts]

    A shallow embedding of [generateRobotFromPrompt] and of the helpers it
    is built from, followed by the properties of the adapter.

    Conventions of the embedding:
    - a JavaScript string is the list of its UTF-16 code units ([N]);
    - a JavaScript number is an IEEE 754 binary64 value ([float]);
    - a value produced by [JSON.parse] is a [JSValue];
    - [console] output and the request to the generation service are
      recorded, in order, in a log of [Event]s;
    - an abrupt completion (a thrown exception) is the [Throw] case of
      [Completion]. *)

From Stdlib Require Import Floats.PrimFloat.
From Stdlib Require Import NArith String Ascii.
From stdpp Require Import gmap list.

Set Warnings "-inexact-float,-register-all".
Local Open Scope N_scope.

(** ** JavaScript strings *)

Module JSString.

Abbreviation jsstring := (list N).

(** A source literal made of ASCII characters, as code units. *)
Definition lit (s : string) : jsstring :=
  map N_of_ascii (list_ascii_of_string s).

Definition inRange (lo hi c : N) : bool := (lo <=? c) && (c <=? hi).

(** WhiteSpace and LineTerminator of ECMAScript: what [trim] strips and
    what the class [\s] of a regular expression accepts. *)
Definition isWhiteSpace (c : N) : bool :=
  inRange 9 13 c || (c =? 32) || (c =? 160) || (c =? 5760)
  || inRange 8192 8202 c || (c =? 8232) || (c =? 8233) || (c =? 8239)
  || (c =? 8287) || (c =? 12288) || (c =? 65279).

Fixpoint trimStart (s : jsstring) : jsstring :=
  match s with
  | c :: rest => if isWhiteSpace c then trimStart rest else s
  | [] => []
  end.

Fixpoint trimEnd (s : jsstring) : jsstring :=
  match s with
  | [] => []
  | c :: rest =>
      match trimEnd rest with
      | [] => if isWhiteSpace c then [] else [c]
      | kept => c :: kept
      end
  end.

(** [String.prototype.trim] *)
Definition trim (s : jsstring) : jsstring := trimEnd (trimStart s).

(** [===] on two strings *)
Definition eqb (a b : jsstring) : bool := bool_decide (a = b).

(** [s.startsWith(p)], with the rest of [s] after [p] *)
Fixpoint stripPrefix (p s : jsstring) : option jsstring :=
  match p, s with
  | [], _ => Some s
  | a :: p', b :: s' => if a =? b then stripPrefix p' s' else None
  | _ :: _, [] => None
  end.

End JSString.
Import JSString.

(** ** Platform decoders used by [b64DecodeUnicode] *)

(** [atob]: the forgiving-base64 decode of the WHATWG Infra standard. The
    result is a binary string, one code unit per byte; [None] stands for
    the [InvalidCharacterError] it throws. *)
Module Base64.

Definition isAsciiWhitespace (c : N) : bool :=
  (c =? 9) || (c =? 10) || (c =? 12) || (c =? 13) || (c =? 32).

Definition sextet (c : N) : option N :=
  if inRange 65 90 c then Some (c - 65)
  else if inRange 97 122 c then Some (c - 97 + 26)
  else if inRange 48 57 c then Some (c - 48 + 52)
  else if c =? 43 then Some 62
  else if c =? 47 then Some 63
  else None.

(** One or two trailing [=] are removed when the length is a multiple
    of four. *)
Definition stripPadding (d : jsstring) : jsstring :=
  if (N.of_nat (length d) mod 4 =? 0) then
    match rev d with
    | 61 :: 61 :: r => rev r
    | 61 :: r => rev r
    | _ => d
    end
  else d.

Fixpoint sextets (d : jsstring) : option (list N) :=
  match d with
  | [] => Some []
  | c :: rest =>
      match sextet c, sextets rest with
      | Some v, Some vs => Some (v :: vs)
      | _, _ => None
      end
  end.

Fixpoint bytesOf (v : list N) : list N :=
  match v with
  | a :: b :: c :: d :: rest =>
      let n := N.lor (N.lor (N.shiftl a 18) (N.shiftl b 12))
                     (N.lor (N.shiftl c 6) d) in
      N.land (N.shiftr n 16) 255 :: N.land (N.shiftr n 8) 255
        :: N.land n 255 :: bytesOf rest
  | [a; b; c] =>
      let n := N.shiftr (N.lor (N.lor (N.shiftl a 12) (N.shiftl b 6)) c) 2 in
      [N.land (N.shiftr n 8) 255; N.land n 255]
  | [a; b] => [N.land (N.shiftr (N.lor (N.shiftl a 6) b) 4) 255]
  | _ => []
  end.

Definition atob (data : jsstring) : option jsstring :=
  let d := stripPadding (filter (fun c => isAsciiWhitespace c = false) data) in
  if (N.of_nat (length d) mod 4 =? 1) then None
  else bytesOf <$> sextets d.

End Base64.

(** [new TextDecoder().decode(bytes)]: the UTF-8 decoder of the WHATWG
    Encoding standard in its default, non-fatal mode. A malformed sequence
    becomes U+FFFD, a leading byte order mark is dropped, and the scalar
    values are returned as UTF-16 code units. *)
Module Utf8.

(** The decoder's state between bytes: the code point so far, the number
    of continuation bytes still needed and the bounds of the next one. *)
Record Pending := { codePoint : N; needed : nat; lower : N; upper : N }.

Definition replacement : N := 65533.

(** A byte read when no sequence is pending. *)
Definition lead (b : N) : list N * option Pending :=
  if b <=? 127 then ([b], None)
  else if inRange 194 223 b then
    ([], Some {| codePoint := N.land b 31; needed := 1; lower := 128; upper := 191 |})
  else if inRange 224 239 b then
    ([], Some {| codePoint := N.land b 15; needed := 2;
                 lower := if b =? 224 then 160 else 128;
                 upper := if b =? 237 then 159 else 191 |})
  else if inRange 240 244 b then
    ([], Some {| codePoint := N.land b 7; needed := 3;
                 lower := if b =? 240 then 144 else 128;
                 upper := if b =? 244 then 143 else 191 |})
  else ([replacement], None).

Fixpoint scalars (st : option Pending) (bytes : list N) : list N :=
  match bytes with
  | [] => match st with Some _ => [replacement] | None => [] end
  | b :: rest =>
      match st with
      | None => let '(out, st') := lead b in out ++ scalars st' rest
      | Some p =>
          if inRange (lower p) (upper p) b then
            let cp := N.lor (N.shiftl (codePoint p) 6) (N.land b 63) in
            match needed p with
            | S (S n) =>
                scalars (Some {| codePoint := cp; needed := S n;
                                 lower := 128; upper := 191 |}) rest
            | _ => cp :: scalars None rest
            end
          else
            (* the byte is put back and read again with no sequence pending *)
            let '(out, st') := lead b in
            replacement :: out ++ scalars st' rest
      end
  end.

Definition dropBOM (cps : list N) : list N :=
  match cps with
  | 65279 :: rest => rest
  | _ => cps
  end.

Definition utf16 (cp : N) : list N :=
  if cp <? 65536 then [cp]
  else let c := cp - 65536 in
       [55296 + N.shiftr c 10; 56320 + N.land c 1023].

Definition decode (bytes : list N) : jsstring :=
  concat (map utf16 (dropBOM (scalars None bytes))).

End Utf8.

(** ** Observable effects *)

Inductive Exn :=
| TypeError
| SyntaxError
| InvalidCharacterError
| ServiceError.

Inductive Completion (A : Type) :=
| Normal (a : A)
| Throw (e : Exn).
Arguments Normal {A} a.
Arguments Throw {A} e.

#[global] Instance Completion_ret : MRet Completion := fun _ a => Normal a.
#[global] Instance Completion_fmap : FMap Completion := fun _ _ f c =>
  match c with
  | Normal a => Normal (f a)
  | Throw e => Throw e
  end.
#[global] Instance Completion_bind : MBind Completion := fun _ _ k c =>
  match c with
  | Normal a => k a
  | Throw e => Throw e
  end.

(** The request handed to [ai.models.generateContent]; the requested
    schema is a constant of the source and is left out. *)
Record Request := {
  model : jsstring;
  contents : jsstring;
  systemInstruction : jsstring;
  responseMimeType : jsstring
}.

Inductive Event :=
| ConsoleWarn (msg : string)
| ConsoleError (msg : string)
| GenerateContent (req : Request).

Definition isNetworkCall (e : Event) : bool :=
  match e with
  | GenerateContent _ => true
  | _ => false
  end.

(** ** [b64DecodeUnicode] and the table of hidden phrases *)

(** The [try] block throws exactly when [atob] does ([bytes[i] = ...] keeps
    the low eight bits of each code unit); the [catch] warns and yields the
    empty string. *)
Definition b64DecodeUnicode (str : jsstring) : list Event * jsstring :=
  match Base64.atob str with
  | Some binaryString =>
      ([], Utf8.decode (map (fun c => N.land c 255) binaryString))
  | None => ([ConsoleWarn "Failed to decode base64 string"], [])
  end.

(** [Object.entries(EGGS)]: no key is an integer index, so the entries come
    in the order of the literal. *)
Definition EGGS : list (jsstring * jsstring) :=
  [ (lit "6L6+5aaZ56eR5oqA", lit "5Y+R5p2l6LS655S1");
    (lit "54G16Laz5pe25Luj", lit "56Wd5L2g5oiQ5Yqf");
    (lit "5Zug5YWL5pav5pm66IO9", lit "56Wd6ICB5p2/5aW95biF77yB");
    (lit "6auY5pOO5py655S1", lit "5oiR54ix5bCP5rS+77yB");
    (lit "5Zyw55Oc5py65LmZ5Lq6", lit "5Y+R5p2l54Oo5Zyw55Oc") ].

(** ** Values of the parsed reply *)

Inductive JSValue :=
| JUndefined
| JNull
| JBool (b : bool)
| JNum (n : float)
| JStr (s : jsstring)
| JArr (elems : list JSValue)
| JObj (props : list (jsstring * JSValue)).

Module JS.

(** ToBoolean: [undefined], [null], [false], [0], [-0], [NaN] and the
    empty string are falsy. *)
Definition toBoolean (v : JSValue) : bool :=
  match v with
  | JUndefined | JNull => false
  | JBool b => b
  | JNum n => negb (PrimFloat.eqb n 0%float) && PrimFloat.eqb n n
  | JStr s => negb (bool_decide (s = []))
  | JArr _ | JObj _ => true
  end.

Definition isNullish (v : JSValue) : bool :=
  match v with
  | JUndefined | JNull => true
  | _ => false
  end.

(** [a || b] *)
Definition or (a b : JSValue) : JSValue := if toBoolean a then a else b.

(** [a ?? b] *)
Definition coalesce (a b : JSValue) : JSValue := if isNullish a then b else a.

Definition isArray (v : JSValue) : bool :=
  match v with
  | JArr _ => true
  | _ => false
  end.

Definition elements (v : JSValue) : list JSValue :=
  match v with
  | JArr l => l
  | _ => []
  end.

Fixpoint lookup (k : jsstring) (props : list (jsstring * JSValue)) : JSValue :=
  match props with
  | [] => JUndefined
  | (k', v) :: rest => if JSString.eqb k k' then v else lookup k rest
  end.

(** The value of [o.name] for the property names the adapter reads, on
    an [o] that is neither [null] nor [undefined]: none of these names is
    defined on a built-in prototype, so only an object's own properties
    can answer. *)
Definition prop (o : JSValue) (name : string) : JSValue :=
  match o with
  | JObj props => lookup (lit name) props
  | _ => JUndefined
  end.

(** [o.name]: reading from [null] or [undefined] throws. *)
Definition get (o : JSValue) (name : string) : Completion JSValue :=
  if isNullish o then Throw TypeError else Normal (prop o name).

Definition digit (i : nat) : jsstring := [48 + N.of_nat i].

(** [o?.[i]] for an index [i] below ten. *)
Definition optIndex (o : JSValue) (i : nat) : JSValue :=
  match o with
  | JArr l => nth i l JUndefined
  | JStr s => match s !! i with Some c => JStr [c] | None => JUndefined end
  | JObj props => lookup (digit i) props
  | _ => JUndefined
  end.

(** [name] is an own property of an object with the properties [props]. *)
Fixpoint hasOwn (name : jsstring) (props : list (jsstring * JSValue)) : bool :=
  match props with
  | [] => false
  | (k, _) :: rest => JSString.eqb name k || hasOwn name rest
  end.

(** The values that ToString accepts. An object of the reply is converted
    by the [toString] it inherits, unless it has a property of this name
    itself: that property is no function, [valueOf] yields no primitive
    either, and the conversion throws. An array joins its elements, so it is
    accepted when each of them is [null], [undefined] or accepted. *)
Fixpoint stringable (v : JSValue) : bool :=
  match v with
  | JArr elems => forallb (fun e => isNullish e || stringable e) elems
  | JObj props => negb (hasOwn (lit "toString") props)
  | _ => true
  end.

(** [o[key] = value] on a plain object used as a table: an own property is
    written or overwritten. The one key that writes none is [__proto__]:
    its setter on [Object.prototype] replaces the prototype of [o]. *)
Definition assign {R : Type} (key : jsstring) (value : R)
    (o : gmap jsstring R) : gmap jsstring R :=
  if JSString.eqb key (lit "__proto__") then o else <[key := value]> o.

End JS.

(** ** The internal record shapes built by the adapter *)

Module Vec3.
Record t := { x : JSValue; y : JSValue; z : JSValue }.
End Vec3.

Module Rpy.
Record t := { r : JSValue; p : JSValue; y : JSValue }.
End Rpy.

Module Origin.
Record t := { xyz : Vec3.t; rpy : Rpy.t }.
Definition identity : t :=
  {| xyz := {| Vec3.x := JNum 0; Vec3.y := JNum 0; Vec3.z := JNum 0 |};
     rpy := {| Rpy.r := JNum 0; Rpy.p := JNum 0; Rpy.y := JNum 0 |} |}.
End Origin.

Module Inertia.
Record t := { ixx : float; ixy : float; ixz : float;
              iyy : float; iyz : float; izz : float }.
End Inertia.

Module Inertial.
Record t := { mass : JSValue; inertia : Inertia.t }.
End Inertial.

Module Geometry.
Record t := { type : JSValue; dimensions : Vec3.t; color : JSValue;
              origin : Origin.t }.
End Geometry.

Module Link.
Record t := { id : JSValue; name : JSValue; inertial : Inertial.t;
              visual : Geometry.t; collision : Geometry.t }.
End Link.

Module Limit.
Record t := { lower : JSValue; upper : JSValue; effort : JSValue;
              velocity : JSValue }.
End Limit.

Module Dynamics.
Record t := { damping : float; friction : float }.
End Dynamics.

Module Hardware.
Record t := { armature : float; motorType : JSValue; motorId : jsstring;
              motorDirection : float }.
End Hardware.

Module Joint.
Record t := { id : JSValue; name : JSValue; type : JSValue;
              parentLinkId : JSValue; childLinkId : JSValue;
              origin : Origin.t; axis : Vec3.t; limit : Limit.t;
              dynamics : Dynamics.t; hardware : Hardware.t }.
End Joint.

Module RobotData.
Record t := { name : JSValue; links : gmap jsstring Link.t;
              joints : gmap jsstring Joint.t; rootLinkId : JSValue }.
End RobotData.

(** An optional property of an object literal: left out, written with the
    value [undefined], or written with a value. *)
Inductive Field (A : Type) :=
| Missing
| Undefined
| Given (a : A).
Arguments Missing {A}.
Arguments Undefined {A}.
Arguments Given {A} a.

Module AIResponse.
Record t := { explanation : JSValue; actionType : JSValue;
              robotData : Field RobotData.t }.
End AIResponse.

(** ** Regular expressions, as far as the source uses them *)

Module RegExp.

(** The constructs of the one pattern in the source. A match is searched
    by backtracking, alternatives in the order ECMAScript tries them. *)
Inductive t :=
| Chars (s : jsstring)            (* literal characters *)
| Optional (r : t)                (* (?:r)?  greedy *)
| Star (cls : N → bool)           (* cls*    greedy *)
| LazyGroup (cls : N → bool)      (* (cls*?) lazy, capture group 1 *)
| Seq (r1 r2 : t).

Section Matcher.

Context {A : Type}.

Definition orElse (x y : option A) : option A :=
  match x with
  | Some a => Some a
  | None => y
  end.

(** Longest run first, then shorter ones. *)
Fixpoint starGreedy (cls : N → bool) (k : jsstring → option A)
    (s : jsstring) : option A :=
  match s with
  | c :: rest =>
      if cls c then orElse (starGreedy cls k rest) (k s) else k s
  | [] => k s
  end.

(** Shortest run first, then longer ones; [got] is what the group has
    consumed so far. *)
Fixpoint starLazy (cls : N → bool) (k : jsstring → jsstring → option A)
    (got s : jsstring) : option A :=
  orElse (k got s)
    match s with
    | c :: rest => if cls c then starLazy cls k (got ++ [c]) rest else None
    | [] => None
    end.

(** [exec r s cap k]: match [r] at the head of [s] and hand the rest of
    the input and capture group 1 to the continuation [k]. *)
Fixpoint exec (r : t) (s : jsstring) (cap : option jsstring)
    (k : jsstring → option jsstring → option A) : option A :=
  match r with
  | Chars p =>
      match stripPrefix p s with
      | Some rest => k rest cap
      | None => None
      end
  | Optional r1 => orElse (exec r1 s cap k) (k s cap)
  | Star cls => starGreedy cls (fun rest => k rest cap) s
  | LazyGroup cls => starLazy cls (fun got rest => k rest (Some got)) [] s
  | Seq r1 r2 => exec r1 s cap (fun rest cap' => exec r2 rest cap' k)
  end.

End Matcher.

(** [s.match(r)] for a pattern without the [g] flag: the first start
    position with a match; the answer is capture group 1 of that match
    ([None] inside when the group took no part). *)
Fixpoint matchGroup1 (r : t) (s : jsstring) : option (option jsstring) :=
  orElse (exec r s None (fun _ cap => Some cap))
    match s with
    | [] => None
    | _ :: rest => matchGroup1 r rest
    end.

Definition any (c : N) : bool := true.

End RegExp.

(** ** The JSON extraction step *)

Module Extraction.

Definition fence : jsstring := lit "```".

(** The pattern of the source, from its end: white space and the closing
    fence; before them the lazily captured content; before it white
    space; and in front the opening fence and the optional [json]. *)
Definition closing : RegExp.t :=
  RegExp.Seq (RegExp.Star isWhiteSpace) (RegExp.Chars fence).

Definition content : RegExp.t :=
  RegExp.Seq (RegExp.LazyGroup RegExp.any) closing.

Definition body : RegExp.t :=
  RegExp.Seq (RegExp.Star isWhiteSpace) content.

Definition jsonBlock : RegExp.t :=
  RegExp.Seq (RegExp.Chars fence)
    (RegExp.Seq (RegExp.Optional (RegExp.Chars (lit "json"))) body).

Local Open Scope Z_scope.

(** [s.indexOf(c)] for a one-character [c]: [-1] when [c] does not occur. *)
Fixpoint indexOf (c : N) (s : jsstring) : Z :=
  match s with
  | [] => -1
  | d :: rest =>
      if (d =? c)%N then 0
      else let i := indexOf c rest in if i =? -1 then -1 else i + 1
  end.

(** [s.lastIndexOf(c)] *)
Fixpoint lastIndexOf (c : N) (s : jsstring) : Z :=
  match s with
  | [] => -1
  | d :: rest =>
      let i := lastIndexOf c rest in
      if i =? -1 then (if (d =? c)%N then 0 else -1) else i + 1
  end.

(** [s.substring(a, b)]: both ends are clamped to the string and swapped
    when out of order. *)
Definition substring (s : jsstring) (a b : Z) : jsstring :=
  let len := Z.of_nat (length s) in
  let a' := Z.min (Z.max a 0) len in
  let b' := Z.min (Z.max b 0) len in
  let from := Z.min a' b' in
  let to := Z.max a' b' in
  take (Z.to_nat (to - from)) (drop (Z.to_nat from) s).

(** Lines 171-181: the value of [jsonString] after the two attempts;
    [None] is [undefined], had group 1 taken no part in the match. *)
Definition extractJson (text : jsstring) : option jsstring :=
  match RegExp.matchGroup1 jsonBlock text with
  | Some group1 => group1
  | None =>
      let firstOpen := indexOf 123 text in
      let lastClose := lastIndexOf 125 text in
      if negb (firstOpen =? -1) && negb (lastClose =? -1)
         && (firstOpen <? lastClose)
      then Some (substring text firstOpen (lastClose + 1))
      else Some []
  end.

End Extraction.

(** ** The extraction step as the specification words it

    A second definition, written from the text of the specification and
    not from the source: the inner content of the first fenced block when
    there is one, otherwise the span from the first opening brace to the
    last closing brace, otherwise nothing. *)

Module ExtractionSpec.

Import Extraction.

(** The text after, and the text before, the first occurrence of [p]. *)
Fixpoint afterFirst (p s : jsstring) : option jsstring :=
  match stripPrefix p s with
  | Some rest => Some rest
  | None =>
      match s with
      | [] => None
      | _ :: s' => afterFirst p s'
      end
  end.

Fixpoint beforeFirst (p s : jsstring) : option jsstring :=
  match stripPrefix p s with
  | Some _ => Some []
  | None =>
      match s with
      | [] => None
      | c :: s' => cons c <$> beforeFirst p s'
      end
  end.

(** With or without the language tag. *)
Definition dropTag (body : jsstring) : jsstring :=
  match stripPrefix (lit "json") body with
  | Some rest => rest
  | None => body
  end.

(** The block opens at the first fence of the text and closes at the next
    one; its inner content is what lies between, less the tag and the
    white space around. *)
Definition fencedContent (text : jsstring) : option jsstring :=
  body ← afterFirst fence text;
  inner ← beforeFirst fence (dropTag body);
  Some (trim inner).

(** The suffix that starts at the first [c]; the prefix that ends at the
    last [c]. *)
Fixpoint fromFirst (c : N) (s : jsstring) : option jsstring :=
  match s with
  | [] => None
  | d :: rest => if d =? c then Some s else fromFirst c rest
  end.

Fixpoint throughLast (c : N) (s : jsstring) : option jsstring :=
  match s with
  | [] => None
  | d :: rest =>
      match throughLast c rest with
      | Some span => Some (d :: span)
      | None => if d =? c then Some [d] else None
      end
  end.

Definition braceSpan (text : jsstring) : option jsstring :=
  fromFirst 123 text ≫= throughLast 125.

Definition candidate (text : jsstring) : jsstring :=
  match fencedContent text with
  | Some inner => inner
  | None =>
      match braceSpan text with
      | Some span => span
      | None => []
      end
  end.

End ExtractionSpec.

(** ** The adapter *)

(** What the adapter sees of its surroundings: the credential in the process
    environment and the reply of the generation service to a request, which
    either throws or carries a [text] that may be [undefined]. *)
Record World := {
  API_KEY : option jsstring;
  generateContent : Request → Completion (option jsstring)
}.

Section Adapter.

(** [RobotState] and [MotorSpec] are declared in [../types], and with them
    goes the system instruction, a template around [JSON.stringify] of the
    two snapshots (lines 64-101). [JSON.parse] and the conversion of a
    number to a string belong to the platform. *)
Context {RobotState MotorLibrary : Type}.
Variable systemPrompt : RobotState → MotorLibrary → jsstring.
Variable JSON_parse : jsstring → Completion JSValue.
Variable numberToString : float → jsstring.

(** *** ToString and property keys *)

Fixpoint joinComma (parts : list jsstring) : jsstring :=
  match parts with
  | [] => []
  | [a] => a
  | a :: rest => a ++ 44 :: joinComma rest
  end.

(** The elements of an array as [join] converts them, one after the
    other: [null] and [undefined] give the empty string. *)
Fixpoint eachPart (convert : JSValue → Completion jsstring)
    (elems : list JSValue) : Completion (list jsstring) :=
  match elems with
  | [] => mret []
  | e :: rest =>
      part ← (if JS.isNullish e then mret [] else convert e);
      parts ← eachPart convert rest;
      mret (part :: parts)
  end.

(** ToString. It throws a [TypeError] on an object that has a property
    named [toString] of its own, and on an array that holds one. *)
Fixpoint toString (v : JSValue) : Completion jsstring :=
  match v with
  | JUndefined => mret (lit "undefined")
  | JNull => mret (lit "null")
  | JBool true => mret (lit "true")
  | JBool false => mret (lit "false")
  | JNum n => mret (numberToString n)
  | JStr s => mret s
  | JArr elems =>
      parts ← eachPart (fun e => toString e) elems;
      mret (joinComma parts)
  | JObj props =>
      if JS.hasOwn (lit "toString") props then Throw TypeError
      else mret (lit "[object Object]")
  end.

(** The key under which [o[v] = ...] stores. *)
Definition toPropertyKey (v : JSValue) : Completion jsstring := toString v.

(** *** Lines 195-221: one link descriptor *)

Definition mapLink (newLinks : gmap jsstring Link.t) (l : JSValue)
    : Completion (gmap jsstring Link.t) :=
  visualType ← JS.get l "visualType";
  d0 ← JS.get l "dimensions";
  d1 ← JS.get l "dimensions";
  d2 ← JS.get l "dimensions";
  let dimensions :=
    {| Vec3.x := JS.or (JS.optIndex d0 0) (JNum 0.1);
       Vec3.y := JS.or (JS.optIndex d1 1) (JNum 0.1);
       Vec3.z := JS.or (JS.optIndex d2 2) (JNum 0.1) |} in
  key ← JS.get l "id";
  id ← JS.get l "id";
  name ← JS.get l "name";
  mass ← JS.get l "mass";
  color ← JS.get l "color";
  (* the key is converted when the assignment stores *)
  k ← toPropertyKey key;
  mret (JS.assign k
    {| Link.id := id;
       Link.name := name;
       Link.inertial :=
         {| Inertial.mass := JS.or mass (JNum 1.0);
            Inertial.inertia :=
              {| Inertia.ixx := 0.1; Inertia.ixy := 0; Inertia.ixz := 0;
                 Inertia.iyy := 0.1; Inertia.iyz := 0; Inertia.izz := 0.1 |} |};
       Link.visual :=
         {| Geometry.type := visualType;
            Geometry.dimensions := dimensions;
            Geometry.color := JS.or color (JStr (lit "#3b82f6"));
            Geometry.origin := Origin.identity |};
       Link.collision :=
         {| Geometry.type := visualType;
            Geometry.dimensions := dimensions;
            Geometry.color := JStr (lit "#ef4444");
            Geometry.origin := Origin.identity |} |} newLinks).

(** *** Lines 223-251: one joint descriptor *)

Definition mapJoint (newJoints : gmap jsstring Joint.t) (j : JSValue)
    : Completion (gmap jsstring Joint.t) :=
  key ← JS.get j "id";
  id ← JS.get j "id";
  name ← JS.get j "name";
  type ← JS.get j "type";
  parentLinkId ← JS.get j "parentLinkId";
  childLinkId ← JS.get j "childLinkId";
  xyz0 ← JS.get j "originXYZ";
  xyz1 ← JS.get j "originXYZ";
  xyz2 ← JS.get j "originXYZ";
  rpy0 ← JS.get j "originRPY";
  rpy1 ← JS.get j "originRPY";
  rpy2 ← JS.get j "originRPY";
  axis0 ← JS.get j "axis";
  axis1 ← JS.get j "axis";
  axis2 ← JS.get j "axis";
  lowerLimit ← JS.get j "lowerLimit";
  upperLimit ← JS.get j "upperLimit";
  effortLimit ← JS.get j "effortLimit";
  velocityLimit ← JS.get j "velocityLimit";
  motorType ← JS.get j "motorType";
  (* the key is converted when the assignment stores *)
  k ← toPropertyKey key;
  mret (JS.assign k
    {| Joint.id := id;
       Joint.name := name;
       Joint.type := type;
       Joint.parentLinkId := parentLinkId;
       Joint.childLinkId := childLinkId;
       Joint.origin :=
         {| Origin.xyz :=
              {| Vec3.x := JS.or (JS.optIndex xyz0 0) (JNum 0);
                 Vec3.y := JS.or (JS.optIndex xyz1 1) (JNum 0);
                 Vec3.z := JS.or (JS.optIndex xyz2 2) (JNum 0) |};
            Origin.rpy :=
              {| Rpy.r := JS.or (JS.optIndex rpy0 0) (JNum 0);
                 Rpy.p := JS.or (JS.optIndex rpy1 1) (JNum 0);
                 Rpy.y := JS.or (JS.optIndex rpy2 2) (JNum 0) |} |};
       Joint.axis :=
         {| Vec3.x := JS.or (JS.optIndex axis0 0) (JNum 0);
            Vec3.y := JS.or (JS.optIndex axis1 1) (JNum 0);
            Vec3.z := JS.or (JS.optIndex axis2 2) (JNum 1) |};
       Joint.limit :=
         {| Limit.lower := JS.coalesce lowerLimit (JNum (-1.57));
            Limit.upper := JS.coalesce upperLimit (JNum 1.57);
            Limit.effort := JS.coalesce effortLimit (JNum 100);
            Limit.velocity := JS.coalesce velocityLimit (JNum 10) |};
       Joint.dynamics := {| Dynamics.damping := 0; Dynamics.friction := 0 |};
       Joint.hardware :=
         {| Hardware.armature := 0;
            Hardware.motorType := JS.or motorType (JStr (lit "None"));
            Hardware.motorId := [];
            Hardware.motorDirection := 1 |} |} newJoints).

(** [arr.forEach(f)] for a callback that updates the object [acc]; an
    exception of the callback ends the loop. *)
Fixpoint forEach {S : Type} (f : S → JSValue → Completion S) (acc : S)
    (arr : list JSValue) : Completion S :=
  match arr with
  | [] => mret acc
  | a :: rest => acc' ← f acc a; forEach f acc' rest
  end.

(** *** Lines 191-259: the robot data of the reply, when there is any *)

Definition mapRobotData (data : JSValue) : Completion RobotData.t :=
  links ← JS.get data "links";
  newLinks ←
    (if JS.toBoolean links && JS.isArray links
     then forEach mapLink ∅ (JS.elements links)
     else mret ∅);
  joints ← JS.get data "joints";
  newJoints ←
    (if JS.toBoolean joints && JS.isArray joints
     then forEach mapJoint ∅ (JS.elements joints)
     else mret ∅);
  name ← JS.get data "name";
  rootLinkId ← JS.get data "rootLinkId";
  mret {| RobotData.name := JS.or name (JStr (lit "modified_robot"));
          RobotData.links := newLinks;
          RobotData.joints := newJoints;
          RobotData.rootLinkId := rootLinkId |}.

(** Lines 185-265: from the extracted string to the response. *)
Definition buildResponse (jsonString : jsstring)
    : Completion (option AIResponse.t) :=
  result ← JSON_parse jsonString;
  data ← JS.get result "robotData";
  finalRobotState ←
    (if JS.toBoolean data then Given <$> mapRobotData data
     else mret Undefined);
  explanation ← JS.get result "explanation";
  actionType ← JS.get result "actionType";
  mret (Some {| AIResponse.explanation := explanation;
                AIResponse.actionType := actionType;
                AIResponse.robotData := finalRobotState |}).

(** Lines 167-265: the [try] block after the reply has arrived. *)
Definition handleReply (text : option jsstring)
    : Completion (option AIResponse.t) :=
  match text with
  | None | Some [] => mret None
  | Some text =>
      match Extraction.extractJson text with
      | None | Some [] => mret None
      | Some jsonString => buildResponse jsonString
      end
  end.

(** *** Lines 42-52: the hidden phrases *)

Fixpoint easterEgg (trimPrompt : jsstring) (entries : list (jsstring * jsstring))
    : list Event * option AIResponse.t :=
  match entries with
  | [] => ([], None)
  | (key, val) :: rest =>
      let '(log1, decodedKey) := b64DecodeUnicode key in
      if JSString.eqb trimPrompt decodedKey then
        let '(log2, text) := b64DecodeUnicode val in
        (log1 ++ log2,
         Some {| AIResponse.explanation := JStr text;
                 AIResponse.actionType := JStr (lit "advice");
                 AIResponse.robotData := Missing |})
      else
        let '(log2, found) := easterEgg trimPrompt rest in
        (log1 ++ log2, found)
  end.

(** [!process.env.API_KEY] *)
Definition credentialMissing (w : World) : bool :=
  match API_KEY w with
  | None | Some [] => true
  | Some _ => false
  end.

Definition missingKeyMessage : jsstring :=
  lit "API Key is missing. Please configure the environment.".

(** Lines 157-165: the one request of a call. *)
Definition buildRequest (prompt : jsstring) (currentRobot : RobotState)
    (motorLibrary : MotorLibrary) : Request :=
  {| model := lit "gemini-2.5-flash";
     contents := prompt;
     systemInstruction := systemPrompt currentRobot motorLibrary;
     responseMimeType := lit "application/json" |}.

(** *** [generateRobotFromPrompt]

    The log of effects and the way the call completes: [Normal None] is
    the [null] result, [Throw] a rejection handed to the caller. Creating
    the client and building the two snapshots (lines 62-80) have no effect
    of their own and leave no trace here. *)
Definition generateRobotFromPrompt (w : World) (prompt : jsstring)
    (currentRobot : RobotState) (motorLibrary : MotorLibrary)
    : list Event * Completion (option AIResponse.t) :=
  let trimPrompt := trim prompt in
  match easterEgg trimPrompt EGGS with
  | (log, Some egg) => (log, Normal (Some egg))
  | (log, None) =>
      if credentialMissing w then
        (log ++ [ConsoleError "API Key missing"],
         Normal (Some {| AIResponse.explanation := JStr missingKeyMessage;
                         AIResponse.actionType := JStr (lit "advice");
                         AIResponse.robotData := Missing |}))
      else
        let request := buildRequest prompt currentRobot motorLibrary in
        let attempt :=
          response ← generateContent w request;
          handleReply response in
        match attempt with
        | Normal res => (log ++ [GenerateContent request], Normal res)
        | Throw e =>
            (log ++ [GenerateContent request;
                     ConsoleError "Gemini generation failed"],
             Normal None)
        end
  end.

(** *** Vocabulary for the properties *)

(** The call gets as far as the request: no hidden phrase matches and a
    credential is configured. *)
Definition reachesRequest (w : World) (prompt : jsstring) : Prop :=
  (easterEgg (trim prompt) EGGS).2 = None ∧ credentialMissing w = false.

(** The call gets as far as the mapper, with [data] as the [robotData] of
    the parsed reply. *)
Definition reachesMapper (w : World) (prompt : jsstring)
    (currentRobot : RobotState) (motorLibrary : MotorLibrary)
    (data : JSValue) : Prop :=
  reachesRequest w prompt
  ∧ ∃ text jsonString result,
      generateContent w (buildRequest prompt currentRobot motorLibrary)
      = Normal (Some text)
      ∧ Extraction.extractJson text = Some jsonString
      ∧ jsonString ≠ []
      ∧ JSON_parse jsonString = Normal result
      ∧ JS.get result "robotData" = Normal data.

End Adapter.

(** The [robotData] field of what a call hands back. *)
Definition robotDataOf (outcome : Completion (option AIResponse.t))
    : Completion (option (Field RobotData.t)) :=
  match outcome with
  | Normal response => Normal (AIResponse.robotData <$> response)
  | Throw e => Throw e
  end.

(** A value that can serve as an identifier: a string that is not empty. *)
Definition usableId (v : JSValue) : Prop := ∃ c s, v = JStr (c :: s).

(** ** Sample inputs

    Replies, descriptors and a small platform on which the adapter can be
    run. *)

Module Sample.

Definition quoted (s : string) : jsstring := 34 :: lit s ++ [34].

(** The object [{ explanation: x, actionType: advice }] as JSON text. *)
Definition adviceJson : jsstring :=
  lit "{" ++ quoted "explanation" ++ lit ":" ++ quoted "x" ++ lit ","
    ++ quoted "actionType" ++ lit ":" ++ quoted "advice" ++ lit "}".

Definition adviceValue : JSValue :=
  JObj [(lit "explanation", JStr (lit "x"));
        (lit "actionType", JStr (lit "advice"))].

(** A robot of one link, [l1], as JSON text and as the parsed value. *)
Definition robotJson : jsstring :=
  lit "{" ++ quoted "actionType" ++ lit ":" ++ quoted "generation" ++ lit ","
    ++ quoted "robotData" ++ lit ":{" ++ quoted "links" ++ lit ":[{"
    ++ quoted "id" ++ lit ":" ++ quoted "l1" ++ lit "}]}}".

Definition robotPayload : JSValue :=
  JObj [(lit "links", JArr [JObj [(lit "id", JStr (lit "l1"))]])].

Definition robotValue : JSValue :=
  JObj [(lit "actionType", JStr (lit "generation"));
        (lit "robotData", robotPayload)].

(** The JSON object inside prose, inside a fence, and after an empty
    fence. *)
Definition proseReply : jsstring :=
  lit "Here you go: " ++ adviceJson ++ lit " Anything else?".

Definition fencedReply : jsstring :=
  lit "```json" ++ [10] ++ robotJson ++ [10] ++ lit "```".

Definition emptyFenceReply : jsstring :=
  lit "```" ++ [10] ++ lit "```" ++ [10] ++ adviceJson.

(** A parser that knows the two sample texts. *)
Definition JSON_parse (s : jsstring) : Completion JSValue :=
  if JSString.eqb s adviceJson then Normal adviceValue
  else if JSString.eqb s robotJson then Normal robotValue
  else Throw SyntaxError.

(** Number to string on the two numbers the samples may use as keys. *)
Definition numberToString (n : float) : jsstring :=
  if PrimFloat.eqb n 0 then lit "0"
  else if PrimFloat.eqb n 1 then lit "1"
  else lit "NaN".

Definition systemPrompt (currentRobot motorLibrary : unit) : jsstring :=
  lit "You are an expert Robotics Engineer and URDF Architect.".

(** A process without a credential, and processes with one whose service
    answers with a fixed reply or fails. *)
Definition noCredential : World :=
  {| API_KEY := None; generateContent := fun _ => Throw ServiceError |}.

Definition replying (text : option jsstring) : World :=
  {| API_KEY := Some (lit "secret"); generateContent := fun _ => Normal text |}.

Definition failing : World :=
  {| API_KEY := Some (lit "secret"); generateContent := fun _ => Throw ServiceError |}.

(** Descriptors with explicit zeros. *)
Definition zeroLimitJoint : JSValue :=
  JObj [(lit "id", JStr (lit "j1"));
        (lit "lowerLimit", JNum 0); (lit "upperLimit", JNum 0);
        (lit "effortLimit", JNum 0); (lit "velocityLimit", JNum 0)].

Definition zeroLink : JSValue :=
  JObj [(lit "id", JStr (lit "l1"));
        (lit "dimensions", JArr [JNum 0; JNum 0; JNum 0]);
        (lit "mass", JNum 0)].

(** The link of the specification's worked example: a box of 1 by 2 by 3,
    mass 2, colour [#fff]. *)
Definition boxLink : JSValue :=
  JObj [(lit "id", JStr (lit "l1")); (lit "name", JStr (lit "base"));
        (lit "visualType", JStr (lit "box"));
        (lit "dimensions", JArr [JNum 1; JNum 2; JNum 3]);
        (lit "color", JStr (lit "#fff")); (lit "mass", JNum 2)].

(** A joint turning about the x axis. *)
Definition xAxisJoint : JSValue :=
  JObj [(lit "id", JStr (lit "j1"));
        (lit "axis", JArr [JNum 1; JNum 0; JNum 0])].

(** A payload whose only link descriptor has no [id], and one whose only
    joint descriptor has the empty string as [id]. *)
Definition anonymousLinkPayload : JSValue :=
  JObj [(lit "links", JArr [JObj [(lit "name", JStr (lit "base"))]])].

Definition emptyIdJointPayload : JSValue :=
  JObj [(lit "joints", JArr [JObj [(lit "id", JStr [])]])].

(** Two link descriptors with the same [id] and different names. *)
Definition firstL1 : JSValue :=
  JObj [(lit "id", JStr (lit "l1")); (lit "name", JStr (lit "first"))].

Definition secondL1 : JSValue :=
  JObj [(lit "id", JStr (lit "l1")); (lit "name", JStr (lit "second"))].

Definition duplicatePayload : JSValue :=
  JObj [(lit "links", JArr [firstL1; secondL1])].

(** A joint descriptor whose [id] is an object with a property [toString],
    alone and inside an array, and a payload that holds the first. *)
Definition selfNamedJoint : JSValue :=
  JObj [(lit "id", JObj [(lit "toString", JNum 1)])].

Definition selfNamedInArrayJoint : JSValue :=
  JObj [(lit "id", JArr [JStr (lit "a"); JObj [(lit "toString", JNum 1)]])].

Definition selfNamedPayload : JSValue :=
  JObj [(lit "links", JArr [JObj [(lit "id", JStr (lit "l1"))]]);
        (lit "joints", JArr [selfNamedJoint])].

(** A parser that, unlike [JSON_parse] above, accepts the empty string. *)
Definition lenientParse (s : jsstring) : Completion JSValue :=
  if JSString.eqb s [] then Normal JNull else JSON_parse s.

End Sample.

(** ** Vocabulary for the records of the mapper *)

(** The constant parts of a link record: the collision block repeats the
    type and dimensions of the visual block in the fixed red, both origins
    are the identity, and the inertia tensor is the fixed one. *)
Definition mirrorsVisual (link : Link.t) : Prop :=
  Geometry.type (Link.collision link) = Geometry.type (Link.visual link)
  ∧ Geometry.dimensions (Link.collision link)
    = Geometry.dimensions (Link.visual link)
  ∧ Geometry.color (Link.collision link) = JStr (lit "#ef4444")
  ∧ Geometry.origin (Link.collision link) = Origin.identity
  ∧ Geometry.origin (Link.visual link) = Origin.identity
  ∧ Inertial.inertia (Link.inertial link)
    = {| Inertia.ixx := 0.1; Inertia.ixy := 0; Inertia.ixz := 0;
         Inertia.iyy := 0.1; Inertia.iyz := 0; Inertia.izz := 0.1 |}.

(** No dimension, mass or colour of the link is falsy. *)
Definition solidLink (link : Link.t) : Prop :=
  JS.toBoolean (Vec3.x (Geometry.dimensions (Link.visual link))) = true
  ∧ JS.toBoolean (Vec3.y (Geometry.dimensions (Link.visual link))) = true
  ∧ JS.toBoolean (Vec3.z (Geometry.dimensions (Link.visual link))) = true
  ∧ JS.toBoolean (Inertial.mass (Link.inertial link)) = true
  ∧ JS.toBoolean (Geometry.color (Link.visual link)) = true.

(** The constant parts of a joint record. *)
Definition fixedBlocks (joint : Joint.t) : Prop :=
  Joint.dynamics joint = {| Dynamics.damping := 0; Dynamics.friction := 0 |}
  ∧ Hardware.armature (Joint.hardware joint) = 0%float
  ∧ Hardware.motorId (Joint.hardware joint) = []
  ∧ Hardware.motorDirection (Joint.hardware joint) = 1%float.

(** What [v || 0] can be: the number zero or a truthy value. *)
Definition zeroOrTruthy (v : JSValue) : Prop :=
  v = JNum 0 ∨ JS.toBoolean v = true.

(** The value ranges of a joint record: no limit is [null] or
    [undefined]; the third axis component and the motor type are truthy;
    the other axis components and the origin are zero or truthy. *)
Definition settledJoint (joint : Joint.t) : Prop :=
  (JS.isNullish (Limit.lower (Joint.limit joint)) = false
   ∧ JS.isNullish (Limit.upper (Joint.limit joint)) = false
   ∧ JS.isNullish (Limit.effort (Joint.limit joint)) = false
   ∧ JS.isNullish (Limit.velocity (Joint.limit joint)) = false)
  ∧ (zeroOrTruthy (Vec3.x (Joint.axis joint))
     ∧ zeroOrTruthy (Vec3.y (Joint.axis joint))
     ∧ JS.toBoolean (Vec3.z (Joint.axis joint)) = true)
  ∧ (zeroOrTruthy (Vec3.x (Origin.xyz (Joint.origin joint)))
     ∧ zeroOrTruthy (Vec3.y (Origin.xyz (Joint.origin joint)))
     ∧ zeroOrTruthy (Vec3.z (Origin.xyz (Joint.origin joint)))
     ∧ zeroOrTruthy (Rpy.r (Origin.rpy (Joint.origin joint)))
     ∧ zeroOrTruthy (Rpy.p (Origin.rpy (Joint.origin joint)))
     ∧ zeroOrTruthy (Rpy.y (Origin.rpy (Joint.origin joint))))
  ∧ JS.toBoolean (Hardware.motorType (Joint.hardware joint)) = true.

(** The key a descriptor is stored under, and the key that stores
    nothing. *)
Definition protoKey : jsstring := lit "__proto__".

(** A descriptor that the mapper can store: it is neither [null] nor
    [undefined], and its [id] can be converted to a key. *)
Definition mappable (d : JSValue) : bool :=
  negb (JS.isNullish d) && JS.stringable (JS.prop d "id").

(** A callback of [forEach] that throws a [TypeError] on a descriptor that
    is not mappable and otherwise stores, under the key of the descriptor's
    [id], a record built from the descriptor alone and related to it by
    [P]. *)
Definition storing {R : Type} (numberToString : float → jsstring)
    (f : gmap jsstring R → JSValue → Completion (gmap jsstring R))
    (P : JSValue → R → Prop) : Prop :=
  (∀ acc d, mappable d = false → f acc d = Throw TypeError)
  ∧ (∀ d, mappable d = true →
       ∃ k r, toPropertyKey numberToString (JS.prop d "id") = Normal k
              ∧ (∀ acc, f acc d = Normal (JS.assign k r acc))
              ∧ P d r).

(** What relates a link or joint record to its descriptor. *)
Definition linkOf (l : JSValue) (link : Link.t) : Prop :=
  Link.id link = JS.prop l "id" ∧ Link.name link = JS.prop l "name"
  ∧ mirrorsVisual link ∧ solidLink link.

Definition jointOf (j : JSValue) (joint : Joint.t) : Prop :=
  Joint.id joint = JS.prop j "id" ∧ Joint.name joint = JS.prop j "name"
  ∧ fixedBlocks joint ∧ settledJoint joint.

(** * Properties *)

(** ** The hidden phrases and the missing credential *)

(** The first key decodes to the phrase written next to it in the source. *)
Lemma b64DecodeUnicode_first_key :
  b64DecodeUnicode (lit "6L6+5aaZ56eR5oqA") = ([], [36798; 22937; 31185; 25216]).
Proof. reflexivity. Qed.

Lemma easterEgg_miss (t : jsstring) (entries : list (jsstring * jsstring)) :
  Forall (fun kv => t ≠ (b64DecodeUnicode kv.1).2) entries →
  easterEgg t entries
  = (concat (map (fun kv => (b64DecodeUnicode kv.1).1) entries), None).
Proof.
  induction 1 as [| [key val] rest Hne _ IH]; [reflexivity |].
  cbn [easterEgg map concat fst snd] in *.
  destruct (b64DecodeUnicode key) as [log1 decodedKey].
  unfold JSString.eqb. rewrite bool_decide_eq_false_2 by exact Hne.
  rewrite IH. reflexivity.
Qed.

Lemma EGGS_decode_silently :
  concat (map (fun kv => (b64DecodeUnicode kv.1).1) EGGS) = [].
Proof. reflexivity. Qed.

(** ** The extraction step against its specification *)

Section FencedBlock.

Import Extraction ExtractionSpec.

Lemma stripPrefix_Some (p s r : jsstring) :
  stripPrefix p s = Some r ↔ s = p ++ r.
Proof.
  revert s. induction p as [| a p IH]; intros s; cbn.
  - split; [intros [= ->] | intros ->]; reflexivity.
  - destruct s as [| b s]; [split; discriminate |].
    destruct (N.eqb_spec a b) as [-> | Hne].
    + rewrite IH. split; [intros -> | intros [= ->]]; reflexivity.
    + split; [discriminate | intros [= <- _]; contradiction].
Qed.

Lemma fence_backticks : fence = [96; 96; 96].
Proof. reflexivity. Qed.

(** No fence starts with a character other than the backtick. *)
Lemma no_fence_at (c : N) (s : jsstring) :
  c ≠ 96 → stripPrefix fence (c :: s) = None.
Proof.
  intros Hc. rewrite fence_backticks. cbn [stripPrefix].
  destruct (N.eqb_spec 96 c) as [<- | _]; [contradiction | reflexivity].
Qed.

Lemma whiteSpace_not_backtick (c : N) : isWhiteSpace c = true → c ≠ 96.
Proof. intros H ->. discriminate H. Qed.

Lemma beforeFirst_skip (c : N) (s : jsstring) :
  c ≠ 96 → beforeFirst fence (c :: s) = cons c <$> beforeFirst fence s.
Proof. intros Hc. cbn [beforeFirst]. rewrite no_fence_at by exact Hc. reflexivity. Qed.

Lemma beforeFirst_tail (c : N) (s : jsstring) :
  beforeFirst fence (c :: s) = None → beforeFirst fence s = None.
Proof.
  cbn [beforeFirst]. destruct (stripPrefix fence (c :: s)); [discriminate |].
  destruct (beforeFirst fence s); [discriminate | reflexivity].
Qed.

Lemma beforeFirst_suffix (t s : jsstring) :
  t `suffix_of` s → beforeFirst fence s = None → beforeFirst fence t = None.
Proof.
  intros [k ->]. induction k as [| a k IH]; [trivial |].
  intros H. apply IH. exact (beforeFirst_tail _ _ H).
Qed.

Lemma afterFirst_split (p s b : jsstring) :
  afterFirst p s = Some b → ∃ pre, s = pre ++ p ++ b.
Proof.
  induction s as [| c s IH]; cbn [afterFirst].
  - destruct (stripPrefix p []) eqn:Hp; [| discriminate].
    intros [= ->]. apply stripPrefix_Some in Hp. exists []. exact Hp.
  - destruct (stripPrefix p (c :: s)) eqn:Hp.
    + intros [= ->]. apply stripPrefix_Some in Hp. exists []. exact Hp.
    + intros H. destruct (IH H) as [pre ->]. exists (c :: pre). reflexivity.
Qed.

Lemma dropTag_suffix (body : jsstring) : dropTag body `suffix_of` body.
Proof.
  unfold dropTag. destruct (stripPrefix (lit "json") body) eqn:H.
  - apply stripPrefix_Some in H. subst body. by apply suffix_app_r.
  - reflexivity.
Qed.

Lemma dropTag_no_fence (body : jsstring) :
  beforeFirst fence (dropTag body) = None → beforeFirst fence body = None.
Proof.
  unfold dropTag. destruct (stripPrefix (lit "json") body) eqn:H; [| trivial].
  apply stripPrefix_Some in H. subst body. intros Hno.
  change (lit "json" ++ l) with (106 :: 115 :: 111 :: 110 :: l).
  rewrite !beforeFirst_skip by discriminate. rewrite Hno. reflexivity.
Qed.

(** *** White space around the content *)

Lemma trimEnd_cons (c : N) (s : jsstring) :
  trimEnd (c :: s)
  = if isWhiteSpace c && bool_decide (trimEnd s = []) then [] else c :: trimEnd s.
Proof.
  cbn [trimEnd]. destruct (trimEnd s) eqn:H; cbn.
  - rewrite andb_true_r. reflexivity.
  - rewrite andb_false_r. reflexivity.
Qed.

Lemma beforeFirst_trimStart (s : jsstring) :
  beforeFirst fence (trimStart s) = trimStart <$> beforeFirst fence s.
Proof.
  induction s as [| c s IH]; [reflexivity |].
  cbn [trimStart]. destruct (isWhiteSpace c) eqn:Hc.
  - rewrite IH, beforeFirst_skip by (by apply whiteSpace_not_backtick).
    destruct (beforeFirst fence s); cbn; [rewrite Hc |]; reflexivity.
  - cbn [beforeFirst]. destruct (stripPrefix fence (c :: s)); [reflexivity |].
    destruct (beforeFirst fence s); cbn; [rewrite Hc |]; reflexivity.
Qed.

(** White space and then a fence: only white space lies before the fence. *)
Lemma fence_after_whiteSpace (s r : jsstring) :
  stripPrefix fence (trimStart s) = Some r →
  ∃ w, beforeFirst fence s = Some w ∧ trimEnd w = [].
Proof.
  induction s as [| c s IH]; [discriminate |].
  cbn [trimStart]. destruct (isWhiteSpace c) eqn:Hc.
  - intros H. destruct (IH H) as (w & Hw & Hend).
    exists (c :: w). rewrite beforeFirst_skip by (by apply whiteSpace_not_backtick).
    rewrite Hw. split; [reflexivity |]. rewrite trimEnd_cons, Hc, Hend. reflexivity.
  - intros H. exists []. cbn [beforeFirst]. rewrite H. split; reflexivity.
Qed.

(** The converse: no fence right after the white space, so what lies
    before the first fence does not vanish when trimmed, unless empty
    already. *)
Lemma content_before_fence (s w : jsstring) :
  stripPrefix fence (trimStart s) = None →
  beforeFirst fence s = Some w → trimEnd w ≠ [].
Proof.
  revert w. induction s as [| c s IH]; intros w; [discriminate |].
  cbn [trimStart beforeFirst]. destruct (isWhiteSpace c) eqn:Hc.
  - intros Hnone. rewrite no_fence_at by (by apply whiteSpace_not_backtick).
    destruct (beforeFirst fence s) as [w' |] eqn:Hw; [| discriminate].
    intros [= <-]. rewrite trimEnd_cons, Hc. cbn.
    specialize (IH w' Hnone eq_refl).
    rewrite bool_decide_eq_false_2 by exact IH. discriminate.
  - intros ->. destruct (beforeFirst fence s) as [w' |]; [| discriminate].
    intros [= <-]. rewrite trimEnd_cons, Hc. discriminate.
Qed.


(** *** The matcher on the pattern, part by part *)

Local Abbreviation final := (fun (_ : jsstring) (cap : option jsstring) => Some cap).

Lemma exec_closing (cap : option jsstring) (s : jsstring) :
  RegExp.exec closing s cap final
  = match stripPrefix fence (trimStart s) with
    | Some _ => Some cap
    | None => None
    end.
Proof.
  unfold closing. cbn [RegExp.exec].
  induction s as [| c s IH]; [reflexivity |].
  cbn [RegExp.starGreedy trimStart]. destruct (isWhiteSpace c) eqn:Hc; [| reflexivity].
  rewrite IH. destruct (stripPrefix fence (trimStart s)); [reflexivity |].
  cbn [RegExp.orElse]. rewrite no_fence_at by (by apply whiteSpace_not_backtick).
  reflexivity.
Qed.

Lemma starLazy_content (got s : jsstring) :
  RegExp.starLazy RegExp.any
    (fun got rest => RegExp.exec closing rest (Some got) final) got s
  = (λ inner, Some (got ++ trimEnd inner)) <$> beforeFirst fence s.
Proof.
  revert got. induction s as [| c s IH]; intros got.
  - cbn [RegExp.starLazy]. rewrite exec_closing. reflexivity.
  - cbn [RegExp.starLazy]. rewrite exec_closing.
    destruct (stripPrefix fence (trimStart (c :: s))) as [r |] eqn:Hfence.
    + destruct (fence_after_whiteSpace _ _ Hfence) as (w & -> & Hend).
      cbn [fmap option_fmap option_map RegExp.orElse].
      rewrite Hend, app_nil_r. reflexivity.
    + cbn [RegExp.orElse RegExp.any]. rewrite IH.
      assert (Hhere : stripPrefix fence (c :: s) = None).
      { revert Hfence. cbn [trimStart]. destruct (isWhiteSpace c) eqn:Hc; [| trivial].
        intros _. by apply no_fence_at, whiteSpace_not_backtick. }
      pose proof (content_before_fence (c :: s)) as Hkeep.
      cbn [beforeFirst] in *. rewrite Hhere in *.
      destruct (beforeFirst fence s) as [w |]; [| reflexivity].
      specialize (Hkeep _ Hfence eq_refl). cbn [fmap option_fmap option_map] in *.
      rewrite trimEnd_cons in *.
      destruct (isWhiteSpace c && bool_decide (trimEnd w = [])); [contradiction |].
      rewrite <- app_assoc. reflexivity.
Qed.

Lemma exec_content (s : jsstring) :
  RegExp.exec content s None final
  = (λ inner, Some (trimEnd inner)) <$> beforeFirst fence s.
Proof. unfold content. cbn [RegExp.exec]. apply (starLazy_content []). Qed.

Lemma exec_body (s : jsstring) :
  RegExp.exec body s None final
  = (λ inner, Some (trim inner)) <$> beforeFirst fence s.
Proof.
  unfold body. cbn [RegExp.exec].
  change (fun rest => RegExp.exec content rest None (fun rest0 cap' => RegExp.exec closing _ _ _))
    with (fun rest => RegExp.exec content rest None final).
  induction s as [| c s IH]; [apply exec_content |].
  cbn [RegExp.starGreedy]. destruct (isWhiteSpace c) eqn:Hc.
  - rewrite IH, exec_content.
    rewrite beforeFirst_skip by (by apply whiteSpace_not_backtick).
    destruct (beforeFirst fence s) as [w |]; [| reflexivity].
    cbn [fmap option_fmap option_map RegExp.orElse].
    unfold trim. cbn [trimStart]. rewrite Hc. reflexivity.
  - rewrite exec_content. cbn [beforeFirst].
    destruct (stripPrefix fence (c :: s)); [reflexivity |].
    destruct (beforeFirst fence s) as [w |]; [| reflexivity].
    cbn [fmap option_fmap option_map].
    unfold trim. cbn [trimStart]. rewrite Hc. reflexivity.
Qed.


(** A match that starts at the head of [s]. *)
Lemma exec_jsonBlock (s : jsstring) :
  RegExp.exec jsonBlock s None final
  = match stripPrefix fence s with
    | Some rest => (λ inner, Some (trim inner)) <$> beforeFirst fence (dropTag rest)
    | None => None
    end.
Proof.
  unfold jsonBlock. cbn [RegExp.exec].
  destruct (stripPrefix fence s) as [rest |]; [| reflexivity].
  change (fun rest0 cap' => RegExp.exec body rest0 cap' (fun _ cap => Some cap))
    with (fun rest0 cap' => RegExp.exec body rest0 cap' final).
  unfold dropTag. destruct (stripPrefix (lit "json") rest) as [rest' |] eqn:Htag.
  - rewrite !exec_body.
    destruct (beforeFirst fence rest') as [w |] eqn:Hw; [reflexivity |].
    cbn [fmap option_fmap option_map RegExp.orElse].
    rewrite (dropTag_no_fence rest); [reflexivity |].
    unfold dropTag. rewrite Htag. exact Hw.
  - cbn [RegExp.orElse]. apply exec_body.
Qed.

(** Where the first fence is not followed by a second one, no later
    fence is either. *)
Lemma no_later_block (rest : jsstring) :
  beforeFirst fence (dropTag rest) = None →
  fencedContent (96 :: 96 :: rest) = None.
Proof.
  intros Hno. apply dropTag_no_fence in Hno.
  unfold fencedContent.
  destruct (afterFirst fence (96 :: 96 :: rest)) as [b |] eqn:Hb; [| reflexivity].
  cbn [mbind option_bind].
  assert (Hsuf : b `suffix_of` rest).
  { apply afterFirst_split in Hb as [pre Hb]. rewrite fence_backticks in Hb.
    destruct pre as [| x [| y pre]]; cbn [app] in Hb; simplify_eq.
    - by apply suffix_cons_r.
    - by apply suffix_cons_r, suffix_cons_r.
    - apply suffix_app_r. by do 3 apply suffix_cons_r. }
  rewrite (beforeFirst_suffix (dropTag b) rest); [reflexivity | | exact Hno].
  etrans; [apply dropTag_suffix | exact Hsuf].
Qed.

(** The search over the start positions finds the block of the
    specification. *)
Lemma matchGroup1_jsonBlock (text : jsstring) :
  RegExp.matchGroup1 jsonBlock text = Some <$> fencedContent text.
Proof.
  induction text as [| c text IH].
  - reflexivity.
  - cbn [RegExp.matchGroup1]. rewrite exec_jsonBlock, IH.
    unfold fencedContent at 2. cbn [afterFirst].
    destruct (stripPrefix fence (c :: text)) as [rest |] eqn:Hfence.
    + cbn [mbind option_bind].
      destruct (beforeFirst fence (dropTag rest)) as [w |] eqn:Hw; [reflexivity |].
      cbn [fmap option_fmap option_map RegExp.orElse mbind option_bind].
      apply stripPrefix_Some in Hfence. rewrite fence_backticks in Hfence.
      injection Hfence as -> ->.
      rewrite no_later_block by exact Hw. reflexivity.
    + reflexivity.
Qed.

End FencedBlock.

(** *** The brace span *)

Section BraceSpan.

Import Extraction ExtractionSpec.
Local Open Scope Z_scope.

Lemma indexOf_range (c : N) (s : jsstring) :
  -1 ≤ indexOf c s < Z.of_nat (length s).
Proof.
  induction s as [| d s IH]; cbn [indexOf length]; [lia |].
  destruct (d =? c)%N; [lia |].
  destruct (Z.eqb_spec (indexOf c s) (-1)); lia.
Qed.

Lemma lastIndexOf_range (c : N) (s : jsstring) :
  -1 ≤ lastIndexOf c s < Z.of_nat (length s).
Proof.
  induction s as [| d s IH]; cbn [lastIndexOf length]; [lia |].
  destruct (Z.eqb_spec (lastIndexOf c s) (-1)); [| lia].
  destruct (d =? c)%N; lia.
Qed.

Lemma substring_in_range (s : jsstring) (a b : Z) :
  0 ≤ a ≤ b → b ≤ Z.of_nat (length s) →
  substring s a b = take (Z.to_nat (b - a)) (drop (Z.to_nat a) s).
Proof.
  intros Hab Hb. unfold substring.
  replace (Z.min (Z.max a 0) (Z.of_nat (length s))) with a by lia.
  replace (Z.min (Z.max b 0) (Z.of_nat (length s))) with b by lia.
  replace (Z.min a b) with a by lia. replace (Z.max a b) with b by lia.
  reflexivity.
Qed.

Lemma throughLast_lastIndexOf (c : N) (s : jsstring) :
  throughLast c s
  = if lastIndexOf c s =? -1 then None
    else Some (take (Z.to_nat (lastIndexOf c s + 1)) s).
Proof.
  induction s as [| d s IH]; [reflexivity |].
  cbn [throughLast lastIndexOf]. rewrite IH.
  pose proof (lastIndexOf_range c s) as Hr.
  destruct (Z.eqb_spec (lastIndexOf c s) (-1)) as [Hj | Hj].
  - destruct (d =? c)%N; reflexivity.
  - destruct (Z.eqb_spec (lastIndexOf c s + 1) (-1)); [lia |].
    replace (Z.to_nat (lastIndexOf c s + 1 + 1))
      with (S (Z.to_nat (lastIndexOf c s + 1))) by lia.
    reflexivity.
Qed.

(** The two index searches and [substring] of the source select the span
    of the specification. *)
Lemma braceSpan_indices (text : jsstring) :
  (if negb (indexOf 123 text =? -1) && negb (lastIndexOf 125 text =? -1)
      && (indexOf 123 text <? lastIndexOf 125 text)
   then substring text (indexOf 123 text) (lastIndexOf 125 text + 1)
   else [])
  = match braceSpan text with
    | Some span => span
    | None => []
    end.
Proof.
  induction text as [| d text IH]; [reflexivity |].
  pose proof (indexOf_range 123 text) as Hi.
  pose proof (lastIndexOf_range 125 text) as Hj.
  unfold braceSpan in *. cbn [fromFirst].
  destruct (N.eqb_spec d 123) as [-> | Hd]; cbn [mbind option_bind].
  - rewrite throughLast_lastIndexOf.
    pose proof (lastIndexOf_range 125 (123%N :: text)) as Hj'.
    cbn [indexOf lastIndexOf length] in *. cbn [N.eqb Pos.eqb] in *.
    destruct (Z.eqb_spec (lastIndexOf 125 text) (-1)) as [Hn | Hn]; [reflexivity |].
    destruct (Z.eqb_spec (lastIndexOf 125 text + 1) (-1)); [lia |].
    destruct (Z.ltb_spec 0 (lastIndexOf 125 text + 1)); [| lia].
    cbn [negb andb Z.eqb]. rewrite substring_in_range by (cbn [length]; lia).
    rewrite Z.sub_0_r. reflexivity.
  - rewrite <- IH. cbn [indexOf lastIndexOf].
    destruct (N.eqb_spec d 123) as [| _]; [contradiction |].
    destruct (Z.eqb_spec (indexOf 123 text) (-1)) as [Hn | Hn]; [reflexivity |].
    destruct (Z.eqb_spec (indexOf 123 text + 1) (-1)); [lia |].
    destruct (Z.eqb_spec (lastIndexOf 125 text) (-1)) as [Hm | Hm].
    + destruct (d =? 125)%N; cbn [negb andb Z.eqb]; [| reflexivity].
      destruct (Z.ltb_spec (indexOf 123 text + 1) 0); [lia | reflexivity].
    + destruct (Z.eqb_spec (lastIndexOf 125 text + 1) (-1)); [lia |].
      cbn [negb andb].
      destruct (Z.ltb_spec (indexOf 123 text) (lastIndexOf 125 text));
        destruct (Z.ltb_spec (indexOf 123 text + 1) (lastIndexOf 125 text + 1));
        try lia; [| reflexivity].
      rewrite !substring_in_range by (cbn [length]; lia).
      replace (Z.to_nat (indexOf 123 text + 1)) with (S (Z.to_nat (indexOf 123 text))) by lia.
      replace (lastIndexOf 125 text + 1 + 1 - (indexOf 123 text + 1))
        with (lastIndexOf 125 text + 1 - indexOf 123 text) by lia.
      reflexivity.
Qed.

(** The extraction of the source computes the candidate of the
    specification. *)
Lemma extractJson_candidate (text : jsstring) :
  extractJson text = Some (candidate text).
Proof.
  unfold extractJson, candidate. rewrite matchGroup1_jsonBlock.
  destruct (fencedContent text) as [inner |]; cbn [fmap option_fmap option_map];
    [reflexivity |].
  rewrite <- braceSpan_indices.
  destruct (negb _ && negb _ && _); reflexivity.
Qed.

End BraceSpan.

(** ** The adapter as a whole *)

Section Properties.

Context {RobotState MotorLibrary : Type}.
Variable systemPrompt : RobotState → MotorLibrary → jsstring.
Variable JSON_parse : jsstring → Completion JSValue.
Variable numberToString : float → jsstring.

Local Abbreviation run :=
  (generateRobotFromPrompt systemPrompt JSON_parse numberToString).

(** C1. For every entry of the trigger table, a prompt that trims to the
    decoded key is answered with [actionType] advice and the decoded value
    as [explanation], the [robotData] field left out; the log of effects
    is empty, so the generation service is not called. *)
Theorem egg_prompt_answered_without_request
    (w : World) (prompt : jsstring) (currentRobot : RobotState)
    (motorLibrary : MotorLibrary) (key val : jsstring) :
  (key, val) ∈ EGGS →
  trim prompt = (b64DecodeUnicode key).2 →
  run w prompt currentRobot motorLibrary
  = ([], Normal (Some {| AIResponse.explanation := JStr (b64DecodeUnicode val).2;
                         AIResponse.actionType := JStr (lit "advice");
                         AIResponse.robotData := Missing |})).
Proof.
  intros Hin Htrim. unfold generateRobotFromPrompt.
  rewrite Htrim. clear Htrim.
  unfold EGGS in Hin.
  repeat (apply elem_of_cons in Hin as [Hin | Hin];
          [injection Hin as -> ->; vm_compute; reflexivity |]).
  apply elem_of_nil in Hin. contradiction.
Qed.

(** C2. A prompt whose trimmed text is no decoded trigger key, in a
    process without a credential, is answered with [actionType] advice
    and the fixed message, the [robotData] field left out; the only
    effect is the console line, so no request is made. *)
Theorem missing_credential_answered_without_request
    (w : World) (prompt : jsstring) (currentRobot : RobotState)
    (motorLibrary : MotorLibrary) :
  (∀ key val, (key, val) ∈ EGGS → trim prompt ≠ (b64DecodeUnicode key).2) →
  credentialMissing w = true →
  run w prompt currentRobot motorLibrary
  = ([ConsoleError "API Key missing"],
     Normal (Some {| AIResponse.explanation :=
                       JStr (lit "API Key is missing. Please configure the environment.");
                     AIResponse.actionType := JStr (lit "advice");
                     AIResponse.robotData := Missing |}))
  ∧ existsb isNetworkCall (run w prompt currentRobot motorLibrary).1 = false.
Proof.
  intros Hmiss Hcred.
  assert (Hrun : easterEgg (trim prompt) EGGS = ([], None)).
  { rewrite easterEgg_miss, EGGS_decode_silently; [reflexivity |].
    apply Forall_forall. intros [key val] Hin. exact (Hmiss key val Hin). }
  unfold generateRobotFromPrompt. rewrite Hrun, Hcred. split; reflexivity.
Qed.


(** ** The robot data mapper *)

Lemma get_present (o : JSValue) (name : string) :
  JS.isNullish o = false → JS.get o name = Normal (JS.prop o name).
Proof. unfold JS.get. intros ->. reflexivity. Qed.

Lemma get_nullish (o : JSValue) (name : string) :
  JS.isNullish o = true → JS.get o name = Throw TypeError.
Proof. unfold JS.get. intros ->. reflexivity. Qed.

Lemma mapLink_throws (newLinks : gmap jsstring Link.t) (l : JSValue) :
  JS.isNullish l = true → mapLink numberToString newLinks l = Throw TypeError.
Proof.
  intros H. unfold mapLink.
  rewrite (get_nullish l "visualType") by exact H. reflexivity.
Qed.

Lemma mapJoint_throws (newJoints : gmap jsstring Joint.t) (j : JSValue) :
  JS.isNullish j = true → mapJoint numberToString newJoints j = Throw TypeError.
Proof.
  intros H. unfold mapJoint.
  rewrite (get_nullish j "id") by exact H. reflexivity.
Qed.

Lemma mapLink_stores (newLinks : gmap jsstring Link.t) (l : JSValue) (k : jsstring) :
  JS.isNullish l = false →
  toPropertyKey numberToString (JS.prop l "id") = Normal k →
  ∃ link,
    mapLink numberToString newLinks l = Normal (JS.assign k link newLinks)
    ∧ Link.id link = JS.prop l "id".
Proof.
  intros H Hk. unfold mapLink. rewrite !get_present by exact H.
  cbn [mbind Completion_bind]. rewrite Hk.
  eexists. split; reflexivity.
Qed.

Lemma mapJoint_stores (newJoints : gmap jsstring Joint.t) (j : JSValue) (k : jsstring) :
  JS.isNullish j = false →
  toPropertyKey numberToString (JS.prop j "id") = Normal k →
  ∃ joint,
    mapJoint numberToString newJoints j = Normal (JS.assign k joint newJoints)
    ∧ Joint.id joint = JS.prop j "id".
Proof.
  intros H Hk. unfold mapJoint. rewrite !get_present by exact H.
  cbn [mbind Completion_bind]. rewrite Hk.
  eexists. split; reflexivity.
Qed.

(** A key that cannot be converted ends the callback with the exception of
    the conversion. *)
Lemma mapLink_key_throws (newLinks : gmap jsstring Link.t) (l : JSValue) (e : Exn) :
  JS.isNullish l = false →
  toPropertyKey numberToString (JS.prop l "id") = Throw e →
  mapLink numberToString newLinks l = Throw e.
Proof.
  intros H Hk. unfold mapLink. rewrite !get_present by exact H.
  cbn [mbind Completion_bind]. rewrite Hk. reflexivity.
Qed.

Lemma mapJoint_key_throws (newJoints : gmap jsstring Joint.t) (j : JSValue) (e : Exn) :
  JS.isNullish j = false →
  toPropertyKey numberToString (JS.prop j "id") = Throw e →
  mapJoint numberToString newJoints j = Throw e.
Proof.
  intros H Hk. unfold mapJoint. rewrite !get_present by exact H.
  cbn [mbind Completion_bind]. rewrite Hk. reflexivity.
Qed.

(** What a [forEach] over descriptors leaves in the object it fills:
    every entry was there before or comes from one of the descriptors. *)
Lemma forEach_origin {R : Type} (f : gmap jsstring R → JSValue → Completion (gmap jsstring R))
    (idOf : R → JSValue) :
  (∀ acc d acc', f acc d = Normal acc' →
     ∃ key rec, toPropertyKey numberToString (JS.prop d "id") = Normal key
                ∧ acc' = JS.assign key rec acc
                ∧ idOf rec = JS.prop d "id") →
  ∀ ds acc m, forEach f acc ds = Normal m →
  ∀ k rec, m !! k = Some rec →
    acc !! k = Some rec
    ∨ ∃ d, d ∈ ds ∧ idOf rec = JS.prop d "id"
           ∧ toPropertyKey numberToString (JS.prop d "id") = Normal k.
Proof.
  intros Hf ds. induction ds as [| d ds IH]; intros acc m Hrun k rec Hk.
  - injection Hrun as <-. left. exact Hk.
  - cbn [forEach] in Hrun.
    destruct (f acc d) as [acc' |] eqn:Hd; [| discriminate].
    cbn in Hrun. destruct (Hf _ _ _ Hd) as (key & rec0 & Hkey0 & -> & Hid).
    destruct (IH _ _ Hrun _ _ Hk) as [Hold | (d' & Hin & Hid' & Hkey)].
    + unfold JS.assign in Hold.
      destruct (JSString.eqb _ _); [left; exact Hold |].
      apply lookup_insert_Some in Hold as [[<- <-] | [_ Hold]].
      * right. exists d. split; [apply elem_of_cons; by left | done].
      * left. exact Hold.
    + right. exists d'. split; [apply elem_of_cons; by right | done].
Qed.

Lemma mapLink_origin (acc : gmap jsstring Link.t) (d : JSValue) acc' :
  mapLink numberToString acc d = Normal acc' →
  ∃ key rec, toPropertyKey numberToString (JS.prop d "id") = Normal key
             ∧ acc' = JS.assign key rec acc
             ∧ Link.id rec = JS.prop d "id".
Proof.
  destruct (JS.isNullish d) eqn:Hn.
  - rewrite mapLink_throws by exact Hn. discriminate.
  - destruct (toPropertyKey numberToString (JS.prop d "id")) as [key | e] eqn:Hkey.
    + destruct (mapLink_stores acc d key Hn Hkey) as (rec & -> & Hid).
      intros [= <-]. eauto.
    + rewrite (mapLink_key_throws acc d e Hn Hkey). discriminate.
Qed.

Lemma mapJoint_origin (acc : gmap jsstring Joint.t) (d : JSValue) acc' :
  mapJoint numberToString acc d = Normal acc' →
  ∃ key rec, toPropertyKey numberToString (JS.prop d "id") = Normal key
             ∧ acc' = JS.assign key rec acc
             ∧ Joint.id rec = JS.prop d "id".
Proof.
  destruct (JS.isNullish d) eqn:Hn.
  - rewrite mapJoint_throws by exact Hn. discriminate.
  - destruct (toPropertyKey numberToString (JS.prop d "id")) as [key | e] eqn:Hkey.
    + destruct (mapJoint_stores acc d key Hn Hkey) as (rec & -> & Hid).
      intros [= <-]. eauto.
    + rewrite (mapJoint_key_throws acc d e Hn Hkey). discriminate.
Qed.

Lemma table_filled {R : Type} (f : gmap jsstring R → JSValue → Completion (gmap jsstring R))
    (v : JSValue) (m : gmap jsstring R) :
  (if JS.toBoolean v && JS.isArray v then forEach f ∅ (JS.elements v) else mret ∅)
  = Normal m →
  JS.isArray v = true ∧ forEach f ∅ (JS.elements v) = Normal m
  ∨ JS.isArray v = false ∧ m = ∅.
Proof.
  destruct v; cbn [JS.toBoolean JS.isArray JS.elements andb];
    try (rewrite ?andb_false_r; intros [= <-]; right; split; reflexivity).
  intros H. left. split; [reflexivity | exact H].
Qed.

(** The two tables of a mapped payload, as the loops leave them. *)
Lemma mapRobotData_tables (data : JSValue) (rd : RobotData.t) :
  mapRobotData numberToString data = Normal rd →
  (JS.isArray (JS.prop data "links") = true
     ∧ forEach (mapLink numberToString) ∅ (JS.elements (JS.prop data "links"))
       = Normal (RobotData.links rd)
   ∨ JS.isArray (JS.prop data "links") = false ∧ RobotData.links rd = ∅)
  ∧ (JS.isArray (JS.prop data "joints") = true
       ∧ forEach (mapJoint numberToString) ∅ (JS.elements (JS.prop data "joints"))
         = Normal (RobotData.joints rd)
     ∨ JS.isArray (JS.prop data "joints") = false ∧ RobotData.joints rd = ∅).
Proof.
  unfold mapRobotData. destruct (JS.isNullish data) eqn:Hn.
  { rewrite (get_nullish data "links") by exact Hn. discriminate. }
  rewrite !get_present by exact Hn. cbn [mbind Completion_bind].
  destruct (if JS.toBoolean (JS.prop data "links") && _ then _ else _)
    as [newLinks |] eqn:Hl; [| discriminate].
  destruct (if JS.toBoolean (JS.prop data "joints") && _ then _ else _)
    as [newJoints |] eqn:Hj; [| discriminate].
  intros [= <-]. cbn [RobotData.links RobotData.joints].
  split; [exact (table_filled _ _ _ Hl) | exact (table_filled _ _ _ Hj)].
Qed.

(** C4. A joint descriptor that is an object (anything but [null] or
    [undefined]) and whose [id] converts to a key is stored with a limit
    block in which each of lower, upper, effort and velocity is the wire
    field itself unless that field is [null] or absent, in which case it
    is -1.57, 1.57, 100 and 10; an explicit numeric zero is therefore
    kept. When the [id] does not convert to a key, the callback throws
    what the conversion throws and nothing is stored. *)
Theorem joint_limits_default_only_when_nullish
    (newJoints : gmap jsstring Joint.t) (j : JSValue) :
  JS.isNullish j = false →
  (∀ e, toPropertyKey numberToString (JS.prop j "id") = Throw e →
     mapJoint numberToString newJoints j = Throw e)
  ∧ (∀ key, toPropertyKey numberToString (JS.prop j "id") = Normal key →
     ∃ joint,
       mapJoint numberToString newJoints j
       = Normal (JS.assign key joint newJoints)
       ∧ Limit.lower (Joint.limit joint)
         = (if JS.isNullish (JS.prop j "lowerLimit") then JNum (-1.57)
            else JS.prop j "lowerLimit")
       ∧ Limit.upper (Joint.limit joint)
         = (if JS.isNullish (JS.prop j "upperLimit") then JNum 1.57
            else JS.prop j "upperLimit")
       ∧ Limit.effort (Joint.limit joint)
         = (if JS.isNullish (JS.prop j "effortLimit") then JNum 100
            else JS.prop j "effortLimit")
       ∧ Limit.velocity (Joint.limit joint)
         = (if JS.isNullish (JS.prop j "velocityLimit") then JNum 10
            else JS.prop j "velocityLimit")
       ∧ (JS.prop j "lowerLimit" = JNum 0 → Limit.lower (Joint.limit joint) = JNum 0)
       ∧ (JS.prop j "upperLimit" = JNum 0 → Limit.upper (Joint.limit joint) = JNum 0)
       ∧ (JS.prop j "effortLimit" = JNum 0 → Limit.effort (Joint.limit joint) = JNum 0)
       ∧ (JS.prop j "velocityLimit" = JNum 0
          → Limit.velocity (Joint.limit joint) = JNum 0)).
Proof.
  intros H. split; [intros e He; exact (mapJoint_key_throws _ _ _ H He) |].
  intros key Hkey. unfold mapJoint. rewrite !get_present by exact H.
  cbn [mbind Completion_bind]. rewrite Hkey.
  eexists. split; [reflexivity |].
  cbn [Joint.limit Limit.lower Limit.upper Limit.effort Limit.velocity].
  unfold JS.coalesce.
  repeat split; try reflexivity; intros ->; reflexivity.
Qed.

(** C5, at a link descriptor whose three dimensions and mass are an
    explicit zero: the claim asks for the zeros to be kept, the code
    stores 0.1 for each dimension, in the visual and in the collision
    block, and 1 for the mass. The joint limits next to it test for
    presence; here the test is for truth, and zero is not true. *)
Theorem zero_dimensions_and_mass_take_defaults :
  ∃ link,
    mapLink numberToString ∅ Sample.zeroLink = Normal (<[lit "l1" := link]> ∅)
    ∧ Geometry.dimensions (Link.visual link)
      = {| Vec3.x := JNum 0.1; Vec3.y := JNum 0.1; Vec3.z := JNum 0.1 |}
    ∧ Geometry.dimensions (Link.collision link)
      = {| Vec3.x := JNum 0.1; Vec3.y := JNum 0.1; Vec3.z := JNum 0.1 |}
    ∧ Inertial.mass (Link.inertial link) = JNum 1.
Proof. eexists. repeat split; reflexivity. Qed.

(** C6, at a joint descriptor with the axis [1, 0, 0]: the claim asks for
    the explicit zero of the third component to be kept, the code stores
    the axis (1, 0, 1). The first two components keep their zero only
    because their default is zero as well. *)
Theorem x_axis_joint_gets_z_one :
  ∃ joint,
    mapJoint numberToString ∅ Sample.xAxisJoint = Normal (<[lit "j1" := joint]> ∅)
    ∧ Joint.axis joint
      = {| Vec3.x := JNum 1; Vec3.y := JNum 0; Vec3.z := JNum 1 |}.
Proof. eexists. split; reflexivity. Qed.

(** C8, amended. Every link and joint record of a mapped payload carries
    as [id] the [id] property of one of the descriptors of the payload,
    unchanged, and is stored under the string form of that [id]. So when
    the [id] of every descriptor is a non-empty string, every record has
    a non-empty string as [id] and as key. *)
Theorem record_ids_are_descriptor_ids (data : JSValue) (rd : RobotData.t) :
  mapRobotData numberToString data = Normal rd →
  (∀ k link, RobotData.links rd !! k = Some link →
     ∃ d, d ∈ JS.elements (JS.prop data "links")
          ∧ Link.id link = JS.prop d "id"
          ∧ toPropertyKey numberToString (Link.id link) = Normal k)
  ∧ (∀ k joint, RobotData.joints rd !! k = Some joint →
       ∃ d, d ∈ JS.elements (JS.prop data "joints")
            ∧ Joint.id joint = JS.prop d "id"
            ∧ toPropertyKey numberToString (Joint.id joint) = Normal k)
  ∧ ((∀ d, d ∈ JS.elements (JS.prop data "links") ++ JS.elements (JS.prop data "joints")
           → usableId (JS.prop d "id")) →
     (∀ k link, RobotData.links rd !! k = Some link →
        usableId (Link.id link) ∧ k ≠ [])
     ∧ (∀ k joint, RobotData.joints rd !! k = Some joint →
          usableId (Joint.id joint) ∧ k ≠ [])).
Proof.
  intros Hmap. destruct (mapRobotData_tables _ _ Hmap) as [Hl Hj].
  assert (HL : ∀ k link, RobotData.links rd !! k = Some link →
     ∃ d, d ∈ JS.elements (JS.prop data "links")
          ∧ Link.id link = JS.prop d "id"
          ∧ toPropertyKey numberToString (Link.id link) = Normal k).
  { intros k link Hk. destruct Hl as [[_ Hrun] | [_ Hempty]].
    - destruct (forEach_origin _ Link.id (mapLink_origin) _ _ _ Hrun _ _ Hk)
        as [Habs | (d & Hin & Hid & Hkey)].
      + rewrite lookup_empty in Habs. discriminate.
      + exists d. rewrite Hid. auto.
    - rewrite Hempty, lookup_empty in Hk. discriminate. }
  assert (HJ : ∀ k joint, RobotData.joints rd !! k = Some joint →
     ∃ d, d ∈ JS.elements (JS.prop data "joints")
          ∧ Joint.id joint = JS.prop d "id"
          ∧ toPropertyKey numberToString (Joint.id joint) = Normal k).
  { intros k joint Hk. destruct Hj as [[_ Hrun] | [_ Hempty]].
    - destruct (forEach_origin _ Joint.id (mapJoint_origin) _ _ _ Hrun _ _ Hk)
        as [Habs | (d & Hin & Hid & Hkey)].
      + rewrite lookup_empty in Habs. discriminate.
      + exists d. rewrite Hid. auto.
    - rewrite Hempty, lookup_empty in Hk. discriminate. }
  split; [exact HL |]. split; [exact HJ |].
  intros Hids. split.
  - intros k link Hk. destruct (HL _ _ Hk) as (d & Hin & Hid & Hkey).
    assert (Hu : usableId (JS.prop d "id")).
    { apply Hids, elem_of_app. by left. }
    rewrite Hid in Hkey |- *. split; [exact Hu |].
    destruct Hu as (c & s & Hs). rewrite Hs in Hkey.
    injection Hkey as <-. discriminate.
  - intros k joint Hk. destruct (HJ _ _ Hk) as (d & Hin & Hid & Hkey).
    assert (Hu : usableId (JS.prop d "id")).
    { apply Hids, elem_of_app. by right. }
    rewrite Hid in Hkey |- *. split; [exact Hu |].
    destruct Hu as (c & s & Hs). rewrite Hs in Hkey.
    injection Hkey as <-. discriminate.
Qed.

(** ** From the request to the result *)

Lemma run_after_request (w : World) (prompt : jsstring)
    (currentRobot : RobotState) (motorLibrary : MotorLibrary) :
  reachesRequest w prompt →
  (run w prompt currentRobot motorLibrary).2
  = match generateContent w (buildRequest systemPrompt prompt currentRobot motorLibrary)
          ≫= handleReply JSON_parse numberToString with
    | Normal res => Normal res
    | Throw _ => Normal None
    end.
Proof.
  intros [Hegg Hcred]. unfold generateRobotFromPrompt.
  destruct (easterEgg (trim prompt) EGGS) as [log found].
  cbn [snd] in Hegg. subst found. rewrite Hcred.
  destruct (generateContent w _ ≫= _); reflexivity.
Qed.

Lemma handleReply_candidate (c : N) (text jsonString : jsstring) :
  Extraction.extractJson (c :: text) = Some jsonString →
  handleReply JSON_parse numberToString (Some (c :: text))
  = match jsonString with
    | [] => Normal None
    | _ => buildResponse JSON_parse numberToString jsonString
    end.
Proof. intros H. unfold handleReply. rewrite H. reflexivity. Qed.

Lemma get_normal_inv (o v : JSValue) (name : string) :
  JS.get o name = Normal v → JS.isNullish o = false.
Proof. unfold JS.get. destruct (JS.isNullish o); [discriminate | reflexivity]. Qed.

(** The response built from a parsed reply whose [robotData] is [data]. *)
Lemma buildResponse_payload (jsonString : jsstring) (result data : JSValue) :
  JSON_parse jsonString = Normal result →
  JS.get result "robotData" = Normal data →
  buildResponse JSON_parse numberToString jsonString
  = (if JS.toBoolean data then Given <$> mapRobotData numberToString data
     else Normal Undefined)
    ≫= λ finalRobotState,
         Normal (Some {| AIResponse.explanation := JS.prop result "explanation";
                         AIResponse.actionType := JS.prop result "actionType";
                         AIResponse.robotData := finalRobotState |}).
Proof.
  intros Hparse Hget. pose proof (get_normal_inv _ _ _ Hget) as Hres.
  unfold buildResponse. rewrite Hparse. cbn [mbind Completion_bind].
  rewrite Hget. cbn [mbind Completion_bind].
  rewrite !get_present by exact Hres. reflexivity.
Qed.

(** C7. No call hands an exception to its caller: every call completes
    normally. In a call that gets as far as the request, the result is
    [null] when the service throws, when the reply has no text or an empty
    one, when [JSON.parse] throws on the extracted string, and when reading
    or mapping the robot data throws; nothing built before the failure is
    handed back. *)
Theorem failures_become_null (w : World) (prompt : jsstring)
    (currentRobot : RobotState) (motorLibrary : MotorLibrary) :
  let request := buildRequest systemPrompt prompt currentRobot motorLibrary in
  let outcome := (run w prompt currentRobot motorLibrary).2 in
  (∃ res, outcome = Normal res)
  ∧ (reachesRequest w prompt →
     (∀ e, generateContent w request = Throw e → outcome = Normal None)
     ∧ (generateContent w request = Normal None → outcome = Normal None)
     ∧ (generateContent w request = Normal (Some []) → outcome = Normal None)
     ∧ (∀ text jsonString e,
          generateContent w request = Normal (Some text) →
          Extraction.extractJson text = Some jsonString →
          JSON_parse jsonString = Throw e →
          outcome = Normal None)
     ∧ (∀ text jsonString result e,
          generateContent w request = Normal (Some text) →
          Extraction.extractJson text = Some jsonString →
          JSON_parse jsonString = Normal result →
          JS.get result "robotData" = Throw e →
          outcome = Normal None)
     ∧ (∀ text jsonString result data e,
          generateContent w request = Normal (Some text) →
          Extraction.extractJson text = Some jsonString →
          JSON_parse jsonString = Normal result →
          JS.get result "robotData" = Normal data →
          JS.toBoolean data = true →
          mapRobotData numberToString data = Throw e →
          outcome = Normal None)).
Proof.
  intros request outcome. subst outcome request. split.
  { unfold generateRobotFromPrompt.
    destruct (easterEgg (trim prompt) EGGS) as [log [egg |]]; [eauto |].
    destruct (credentialMissing w); [eauto |].
    destruct (generateContent w _ ≫= _); eauto. }
  intros Hreach. rewrite (run_after_request _ _ _ _ Hreach).
  repeat split.
  - intros e ->. reflexivity.
  - intros ->. reflexivity.
  - intros ->. reflexivity.
  - intros text jsonString e -> Hext Hparse. cbn [mbind Completion_bind].
    destruct text as [| c text]; [reflexivity |].
    rewrite (handleReply_candidate _ _ _ Hext).
    destruct jsonString; [reflexivity |].
    unfold buildResponse. rewrite Hparse. reflexivity.
  - intros text jsonString result e -> Hext Hparse Hget.
    cbn [mbind Completion_bind].
    destruct text as [| c text]; [reflexivity |].
    rewrite (handleReply_candidate _ _ _ Hext).
    destruct jsonString; [reflexivity |].
    unfold buildResponse. rewrite Hparse. cbn [mbind Completion_bind].
    rewrite Hget. reflexivity.
  - intros text jsonString result data e -> Hext Hparse Hget Htrue Hmap.
    cbn [mbind Completion_bind].
    destruct text as [| c text]; [reflexivity |].
    rewrite (handleReply_candidate _ _ _ Hext).
    destruct jsonString; [reflexivity |].
    rewrite (buildResponse_payload _ _ _ Hparse Hget), Htrue, Hmap.
    reflexivity.
Qed.

(** What the mapper contributes to the result, as a function of the
    payload alone. *)
Lemma run_maps_payload (w : World) (prompt : jsstring)
    (currentRobot : RobotState) (motorLibrary : MotorLibrary) (data : JSValue) :
  reachesMapper systemPrompt JSON_parse w prompt currentRobot motorLibrary data →
  robotDataOf (run w prompt currentRobot motorLibrary).2
  = if JS.toBoolean data then
      match mapRobotData numberToString data with
      | Normal rd => Normal (Some (Given rd))
      | Throw _ => Normal None
      end
    else Normal (Some Undefined).
Proof.
  intros (Hreach & text & jsonString & result & Hgen & Hext & Hne & Hparse & Hget).
  rewrite (run_after_request _ _ _ _ Hreach), Hgen. cbn [mbind Completion_bind].
  destruct text as [| c text].
  { injection Hext as <-. contradiction. }
  rewrite (handleReply_candidate _ _ _ Hext).
  destruct jsonString as [| c' js']; [contradiction |].
  rewrite (buildResponse_payload _ _ _ Hparse Hget).
  destruct (JS.toBoolean data); [| reflexivity].
  destruct (mapRobotData numberToString data); reflexivity.
Qed.

(** C9. Two calls whose parsed replies carry the same [robotData] payload
    hand back the same link and joint records (or both none), whatever
    the prompts, the robots, the motor catalogs, the credentials, the
    services and the rest of the replies were: the mapping depends on
    the payload and on nothing else. *)
Theorem same_payload_same_records
    (w1 w2 : World) (prompt1 prompt2 : jsstring)
    (currentRobot1 currentRobot2 : RobotState)
    (motorLibrary1 motorLibrary2 : MotorLibrary) (data : JSValue) :
  reachesMapper systemPrompt JSON_parse w1 prompt1 currentRobot1 motorLibrary1 data →
  reachesMapper systemPrompt JSON_parse w2 prompt2 currentRobot2 motorLibrary2 data →
  robotDataOf (run w1 prompt1 currentRobot1 motorLibrary1).2
  = robotDataOf (run w2 prompt2 currentRobot2 motorLibrary2).2.
Proof.
  intros H1 H2.
  rewrite (run_maps_payload _ _ _ _ _ H1), (run_maps_payload _ _ _ _ _ H2).
  reflexivity.
Qed.

(** ** Extraction inside the call *)

Lemma reply_without_candidate (w : World) (prompt : jsstring)
    (currentRobot : RobotState) (motorLibrary : MotorLibrary) (text : jsstring) :
  reachesRequest w prompt →
  generateContent w (buildRequest systemPrompt prompt currentRobot motorLibrary)
  = Normal (Some text) →
  Extraction.extractJson text = Some [] →
  (run w prompt currentRobot motorLibrary).2 = Normal None.
Proof.
  intros Hreach Hgen Hext.
  rewrite (run_after_request _ _ _ _ Hreach), Hgen. cbn [mbind Completion_bind].
  destruct text as [| c text]; [reflexivity |].
  rewrite (handleReply_candidate _ _ _ Hext). reflexivity.
Qed.

(** C3. For every reply text the string handed to [JSON.parse] is chosen in
    this order: the inner content of the first fenced block (the text
    between the first fence and the next one, less a leading [json] and the
    white space around) when the text has such a block; otherwise the span
    from the first opening brace to the last closing brace; and when
    neither gives a string that is not empty, the call returns [null]. *)
Theorem extraction_follows_preference_order (text : jsstring) :
  Extraction.extractJson text = Some (ExtractionSpec.candidate text)
  ∧ (∀ inner, ExtractionSpec.fencedContent text = Some inner →
       Extraction.extractJson text = Some inner)
  ∧ (∀ span, ExtractionSpec.fencedContent text = None →
       ExtractionSpec.braceSpan text = Some span →
       Extraction.extractJson text = Some span)
  ∧ (∀ w prompt currentRobot motorLibrary,
       reachesRequest w prompt →
       generateContent w (buildRequest systemPrompt prompt currentRobot motorLibrary)
       = Normal (Some text) →
       (∀ c s, ExtractionSpec.fencedContent text ≠ Some (c :: s)) →
       (∀ c s, ExtractionSpec.braceSpan text ≠ Some (c :: s)) →
       (run w prompt currentRobot motorLibrary).2 = Normal None).
Proof.
  pose proof (extractJson_candidate text) as Hext.
  split; [exact Hext |]. split; [| split].
  - intros inner Hin. rewrite Hext. unfold ExtractionSpec.candidate.
    rewrite Hin. reflexivity.
  - intros span Hnone Hspan. rewrite Hext. unfold ExtractionSpec.candidate.
    rewrite Hnone, Hspan. reflexivity.
  - intros w prompt currentRobot motorLibrary Hreach Hgen Hfence Hbrace.
    apply (reply_without_candidate _ _ _ _ text Hreach Hgen).
    rewrite Hext. f_equal. unfold ExtractionSpec.candidate.
    destruct (ExtractionSpec.fencedContent text) as [[| c s] |].
    + reflexivity.
    + destruct (Hfence c s eq_refl).
    + destruct (ExtractionSpec.braceSpan text) as [[| c s] |]; try reflexivity.
      destruct (Hbrace c s eq_refl).
Qed.

(** C10. Whenever the pattern finds a fenced block, its group is the
    extracted string, whatever else the text holds. The sample reply has an
    empty fenced block followed by a JSON object that the brace span of the
    source would select; the block wins, the extracted string is empty, and
    every call that receives this reply returns [null], whatever
    [JSON.parse] would have made of the object. *)
Theorem empty_fence_blocks_brace_fallback :
  (∀ text group1,
     RegExp.matchGroup1 Extraction.jsonBlock text = Some group1 →
     Extraction.extractJson text = group1)
  ∧ RegExp.matchGroup1 Extraction.jsonBlock Sample.emptyFenceReply = Some (Some [])
  ∧ Extraction.substring Sample.emptyFenceReply
      (Extraction.indexOf 123 Sample.emptyFenceReply)
      (Extraction.lastIndexOf 125 Sample.emptyFenceReply + 1)
    = Sample.adviceJson
  ∧ (∀ w prompt currentRobot motorLibrary,
       reachesRequest w prompt →
       generateContent w (buildRequest systemPrompt prompt currentRobot motorLibrary)
       = Normal (Some Sample.emptyFenceReply) →
       (run w prompt currentRobot motorLibrary).2 = Normal None).
Proof.
  split; [| split; [| split]].
  - intros text group1 Hmatch. unfold Extraction.extractJson.
    rewrite Hmatch. reflexivity.
  - reflexivity.
  - reflexivity.
  - intros w prompt currentRobot motorLibrary Hreach Hgen.
    apply (reply_without_candidate _ _ _ _ _ Hreach Hgen). reflexivity.
Qed.

End Properties.

(** ** The theorems at sample inputs *)

Lemma joint_limits_witness :
  JS.isNullish Sample.zeroLimitJoint = false
  ∧ ∃ joint,
      mapJoint Sample.numberToString ∅ Sample.zeroLimitJoint
      = Normal (<[lit "j1" := joint]> ∅)
      ∧ Limit.lower (Joint.limit joint) = JNum 0.
Proof.
  split; [reflexivity |].
  destruct (proj2 (joint_limits_default_only_when_nullish
                     Sample.numberToString ∅ Sample.zeroLimitJoint eq_refl)
              (lit "j1") eq_refl)
    as (joint & Hrun & _ & _ & _ & _ & Hlower & _).
  exists joint. split; [exact Hrun | exact (Hlower eq_refl)].
Defined.

(** C8 as stated fails: the link built from a descriptor without [id] has
    [undefined] as its [id] (and sits under the key [undefined]). *)
Lemma record_without_usable_id :
  ¬ (∀ data rd,
       mapRobotData Sample.numberToString data = Normal rd →
       (∀ k link, RobotData.links rd !! k = Some link →
          usableId (Link.id link) ∧ k ≠ [])
       ∧ (∀ k joint, RobotData.joints rd !! k = Some joint →
            usableId (Joint.id joint) ∧ k ≠ [])).
Proof.
  intros Hclaim.
  destruct (Hclaim Sample.anonymousLinkPayload _ eq_refl) as [Hlinks _].
  destruct (Hlinks (lit "undefined") _ eq_refl) as [(c & s & Hid) _].
  discriminate Hid.
Qed.

(** A joint descriptor whose [id] is the empty string is stored under the
    empty key. *)
Lemma joint_under_empty_key :
  ∃ rd joint,
    mapRobotData Sample.numberToString Sample.emptyIdJointPayload = Normal rd
    ∧ RobotData.joints rd !! [] = Some joint
    ∧ Joint.id joint = JStr [].
Proof. do 2 eexists. repeat split; reflexivity. Qed.

Lemma record_ids_witness :
  ∃ rd,
    mapRobotData Sample.numberToString Sample.robotPayload = Normal rd
    ∧ ∀ k link, RobotData.links rd !! k = Some link →
        ∃ d, d ∈ JS.elements (JS.prop Sample.robotPayload "links")
             ∧ Link.id link = JS.prop d "id"
             ∧ toPropertyKey Sample.numberToString (Link.id link) = Normal k.
Proof.
  eexists. split; [reflexivity |].
  exact (proj1 (record_ids_are_descriptor_ids
                  Sample.numberToString Sample.robotPayload _ eq_refl)).
Defined.

Lemma egg_prompt_witness :
  generateRobotFromPrompt Sample.systemPrompt Sample.JSON_parse
    Sample.numberToString Sample.noCredential
    (lit "  " ++ [36798; 22937; 31185; 25216] ++ [10]) tt tt
  = ([], Normal (Some {| AIResponse.explanation := JStr [21457; 26469; 36154; 30005];
                         AIResponse.actionType := JStr (lit "advice");
                         AIResponse.robotData := Missing |})).
Proof.
  apply (egg_prompt_answered_without_request
           Sample.systemPrompt Sample.JSON_parse Sample.numberToString
           Sample.noCredential _ tt tt
           (lit "6L6+5aaZ56eR5oqA") (lit "5Y+R5p2l6LS655S1")).
  - apply elem_of_cons. left. reflexivity.
  - reflexivity.
Defined.

Lemma hello_is_no_egg (key val : jsstring) :
  (key, val) ∈ EGGS → trim (lit "hello") ≠ (b64DecodeUnicode key).2.
Proof.
  unfold EGGS. intros Hin.
  repeat (apply elem_of_cons in Hin as [Hin | Hin];
          [injection Hin as -> ->; vm_compute; discriminate |]).
  apply elem_of_nil in Hin. contradiction.
Defined.

Lemma missing_credential_witness :
  generateRobotFromPrompt Sample.systemPrompt Sample.JSON_parse
    Sample.numberToString Sample.noCredential (lit "hello") tt tt
  = ([ConsoleError "API Key missing"],
     Normal (Some {| AIResponse.explanation :=
                       JStr (lit "API Key is missing. Please configure the environment.");
                     AIResponse.actionType := JStr (lit "advice");
                     AIResponse.robotData := Missing |})).
Proof.
  exact (proj1 (missing_credential_answered_without_request
                  Sample.systemPrompt Sample.JSON_parse Sample.numberToString
                  Sample.noCredential (lit "hello") tt tt
                  hello_is_no_egg eq_refl)).
Defined.

Lemma failures_witness :
  reachesRequest Sample.failing (lit "hello")
  ∧ (generateRobotFromPrompt Sample.systemPrompt Sample.JSON_parse
       Sample.numberToString Sample.failing (lit "hello") tt tt).2
    = Normal None.
Proof.
  assert (Hreach : reachesRequest Sample.failing (lit "hello")).
  { split; reflexivity. }
  split; [exact Hreach |].
  exact (proj1 (proj2 (failures_become_null
                         Sample.systemPrompt Sample.JSON_parse
                         Sample.numberToString Sample.failing (lit "hello")
                         tt tt) Hreach)
           ServiceError eq_refl).
Defined.

Lemma fenced_reply_reaches_mapper :
  reachesMapper Sample.systemPrompt Sample.JSON_parse
    (Sample.replying (Some Sample.fencedReply)) (lit "build a robot") tt tt
    Sample.robotPayload.
Proof.
  split; [split; reflexivity |].
  exists Sample.fencedReply, Sample.robotJson, Sample.robotValue.
  repeat split; try reflexivity. discriminate.
Defined.

Lemma bare_reply_reaches_mapper :
  reachesMapper Sample.systemPrompt Sample.JSON_parse
    (Sample.replying (Some Sample.robotJson)) (lit "  one more, please ") tt tt
    Sample.robotPayload.
Proof.
  split; [split; reflexivity |].
  exists Sample.robotJson, Sample.robotJson, Sample.robotValue.
  repeat split; try reflexivity. discriminate.
Defined.

Lemma same_payload_witness :
  robotDataOf
    (generateRobotFromPrompt Sample.systemPrompt Sample.JSON_parse
       Sample.numberToString (Sample.replying (Some Sample.fencedReply))
       (lit "build a robot") tt tt).2
  = robotDataOf
      (generateRobotFromPrompt Sample.systemPrompt Sample.JSON_parse
         Sample.numberToString (Sample.replying (Some Sample.robotJson))
         (lit "  one more, please ") tt tt).2.
Proof.
  exact (same_payload_same_records
           Sample.systemPrompt Sample.JSON_parse Sample.numberToString
           _ _ _ _ tt tt tt tt Sample.robotPayload
           fenced_reply_reaches_mapper bare_reply_reaches_mapper).
Defined.

Lemma extraction_witness :
  Extraction.extractJson Sample.proseReply = Some Sample.adviceJson
  ∧ Extraction.extractJson Sample.fencedReply = Some Sample.robotJson.
Proof.
  split.
  - exact (proj1 (proj2 (proj2 (extraction_follows_preference_order
                                  Sample.systemPrompt Sample.JSON_parse
                                  Sample.numberToString Sample.proseReply)))
             Sample.adviceJson eq_refl eq_refl).
  - exact (proj1 (proj2 (extraction_follows_preference_order
                           Sample.systemPrompt Sample.JSON_parse
                           Sample.numberToString Sample.fencedReply))
             Sample.robotJson eq_refl).
Defined.

(** The same parser answers the object when it comes without the fence. *)
Lemma prose_reply_answered :
  (generateRobotFromPrompt Sample.systemPrompt Sample.JSON_parse
     Sample.numberToString (Sample.replying (Some Sample.proseReply))
     (lit "hello") tt tt).2
  = Normal (Some {| AIResponse.explanation := JStr (lit "x");
                    AIResponse.actionType := JStr (lit "advice");
                    AIResponse.robotData := Undefined |}).
Proof. reflexivity. Qed.

Lemma empty_fence_witness :
  (generateRobotFromPrompt Sample.systemPrompt Sample.JSON_parse
     Sample.numberToString (Sample.replying (Some Sample.emptyFenceReply))
     (lit "hello") tt tt).2
  = Normal None.
Proof.
  refine (proj2 (proj2 (proj2 (empty_fence_blocks_brace_fallback
                                 Sample.systemPrompt Sample.JSON_parse
                                 Sample.numberToString)))
            (Sample.replying (Some Sample.emptyFenceReply)) (lit "hello") tt tt
            _ eq_refl).
  split; reflexivity.
Defined.

(** The worked example of the specification, at the mapper. *)
Lemma box_link_mapped :
  ∃ link,
    mapLink Sample.numberToString ∅ Sample.boxLink = Normal (<[lit "l1" := link]> ∅)
    ∧ Link.id link = JStr (lit "l1")
    ∧ Geometry.dimensions (Link.visual link)
      = {| Vec3.x := JNum 1; Vec3.y := JNum 2; Vec3.z := JNum 3 |}
    ∧ Inertial.mass (Link.inertial link) = JNum 2
    ∧ Geometry.color (Link.visual link) = JStr (lit "#fff")
    ∧ Geometry.color (Link.collision link) = JStr (lit "#ef4444").
Proof. eexists. repeat split; reflexivity. Qed.

(** * Further properties of the adapter *)

(** ** Decoding *)

Section MoreDecoding.

Lemma sextets_invalid (d : jsstring) (c : N) :
  c ∈ d → Base64.sextet c = None → Base64.sextets d = None.
Proof.
  induction d as [| a d IH]; intros Hin Hbad.
  - apply elem_of_nil in Hin. contradiction.
  - cbn [Base64.sextets]. apply elem_of_cons in Hin as [<- | Hin].
    + rewrite Hbad. reflexivity.
    + rewrite (IH Hin Hbad). destruct (Base64.sextet a); reflexivity.
Qed.

Lemma stripPadding_cases (d : jsstring) :
  Base64.stripPadding d = d
  ∨ (∃ r, rev d = 61 :: r ∧ Base64.stripPadding d = rev r)
  ∨ (∃ r, rev d = 61 :: 61 :: r ∧ Base64.stripPadding d = rev r).
Proof.
  unfold Base64.stripPadding.
  destruct (N.of_nat (length d) mod 4 =? 0); [| by left].
  destruct (rev d) as [| a l]; [by left |].
  repeat case_match; subst; eauto.
Qed.

Lemma rev_elem (c : N) (l : jsstring) : c ∈ rev l ↔ c ∈ l.
Proof. rewrite !list_elem_of_In. symmetry. apply in_rev. Qed.

Lemma stripPadding_keeps (d : jsstring) (c : N) :
  c ≠ 61 → c ∈ d → c ∈ Base64.stripPadding d.
Proof.
  intros Hc Hin. apply rev_elem in Hin.
  destruct (stripPadding_cases d) as [-> | [(r & Hr & ->) | (r & Hr & ->)]].
  - by apply rev_elem.
  - rewrite Hr in Hin. apply rev_elem.
    apply elem_of_cons in Hin as [-> | Hin]; [contradiction | exact Hin].
  - rewrite Hr in Hin. apply rev_elem.
    apply elem_of_cons in Hin as [-> | Hin]; [contradiction |].
    apply elem_of_cons in Hin as [-> | Hin]; [contradiction | exact Hin].
Qed.

Lemma atob_invalid (str : jsstring) (c : N) :
  c ∈ str → Base64.sextet c = None → c ≠ 61 →
  Base64.isAsciiWhitespace c = false →
  Base64.atob str = None.
Proof.
  intros Hin Hbad Hpad Hws. unfold Base64.atob.
  destruct (_ =? 1); [reflexivity |].
  rewrite (sextets_invalid _ c); [reflexivity | | exact Hbad].
  apply stripPadding_keeps; [exact Hpad |].
  apply list_elem_of_filter. split; [exact Hws | exact Hin].
Qed.

(** X1. A string that holds a character outside the base64 alphabet, the
    padding sign and ASCII white space is not decoded: [b64DecodeUnicode]
    warns once on the console and returns the empty string. *)
Theorem b64DecodeUnicode_invalid_character (str : jsstring) (c : N) :
  c ∈ str → Base64.sextet c = None → c ≠ 61 →
  Base64.isAsciiWhitespace c = false →
  b64DecodeUnicode str = ([ConsoleWarn "Failed to decode base64 string"], []).
Proof.
  intros Hin Hbad Hpad Hws. unfold b64DecodeUnicode.
  rewrite (atob_invalid str c Hin Hbad Hpad Hws). reflexivity.
Qed.

Lemma land_255_byte (n : N) : N.land n 255 < 256.
Proof.
  change 255 with (N.ones 8). rewrite N.land_ones.
  apply N.mod_lt. discriminate.
Qed.

Lemma land_255_small (n : N) : n < 256 → N.land n 255 = n.
Proof.
  intros H. change 255 with (N.ones 8). rewrite N.land_ones.
  apply N.mod_small. exact H.
Qed.

Lemma bytesOf_bytes (v : list N) : Forall (λ b, b < 256) (Base64.bytesOf v).
Proof.
  assert (H : ∀ n v, (length v ≤ n)%nat → Forall (λ b, b < 256) (Base64.bytesOf v)).
  { clear v. induction n as [| n IH]; intros v Hlen.
    - destruct v; [constructor | cbn [length] in Hlen; lia].
    - destruct v as [| a [| b [| c [| d rest]]]]; cbn [Base64.bytesOf].
      + constructor.
      + constructor.
      + repeat constructor. apply land_255_byte.
      + repeat constructor; apply land_255_byte.
      + repeat (constructor; [apply land_255_byte |]).
        apply IH. cbn [length] in Hlen. lia. }
  exact (H (length v) v (le_n _)).
Qed.

Lemma atob_bytes (str binaryString : jsstring) :
  Base64.atob str = Some binaryString → Forall (λ b, b < 256) binaryString.
Proof.
  unfold Base64.atob. destruct (_ =? 1); [discriminate |].
  destruct (Base64.sextets _) as [v |]; [| discriminate].
  intros [= <-]. apply bytesOf_bytes.
Qed.

Lemma byte_copy_id (bytes : list N) :
  Forall (λ b, b < 256) bytes → map (λ c, N.land c 255) bytes = bytes.
Proof.
  induction 1 as [| b l Hb _ IH]; [reflexivity |].
  cbn [map]. rewrite land_255_small by exact Hb. rewrite IH. reflexivity.
Qed.

(** X2. What [atob] returns holds only code units below 256, so copying
    them into the byte array loses nothing: the text returned is the UTF-8
    decoding of exactly the decoded bytes, and nothing is logged. *)
Theorem b64DecodeUnicode_decodes_atob_bytes (str binaryString : jsstring) :
  Base64.atob str = Some binaryString →
  Forall (λ b, b < 256) binaryString
  ∧ b64DecodeUnicode str = ([], Utf8.decode binaryString).
Proof.
  intros Hatob. pose proof (atob_bytes _ _ Hatob) as Hbytes.
  split; [exact Hbytes |].
  unfold b64DecodeUnicode. rewrite Hatob, byte_copy_id by exact Hbytes.
  reflexivity.
Qed.

Lemma scalars_ascii (bytes : list N) :
  Forall (λ b, b ≤ 127) bytes → Utf8.scalars None bytes = bytes.
Proof.
  induction 1 as [| b l Hb _ IH]; [reflexivity |].
  cbn [Utf8.scalars]. unfold Utf8.lead.
  destruct (N.leb_spec b 127); [| lia]. cbn [app]. rewrite IH. reflexivity.
Qed.

Lemma decode_ascii (bytes : list N) :
  Forall (λ b, b ≤ 127) bytes → Utf8.decode bytes = bytes.
Proof.
  intros H. unfold Utf8.decode. rewrite scalars_ascii by exact H.
  assert (Hbom : Utf8.dropBOM bytes = bytes).
  { destruct H as [| b l Hb _]; [reflexivity |].
    unfold Utf8.dropBOM. repeat case_match; subst; try reflexivity; lia. }
  rewrite Hbom. clear Hbom. induction H as [| b l Hb _ IH]; [reflexivity |].
  cbn [map concat]. rewrite IH. unfold Utf8.utf16.
  destruct (N.ltb_spec b 65536); [reflexivity | lia].
Qed.

(** X3. When the bytes that [atob] yields are all below 128, the text
    returned by [b64DecodeUnicode] is these bytes, one code unit each:
    base64 of ASCII text decodes to that text. *)
Theorem b64DecodeUnicode_ascii (str binaryString : jsstring) :
  Base64.atob str = Some binaryString →
  Forall (λ b, b ≤ 127) binaryString →
  b64DecodeUnicode str = ([], binaryString).
Proof.
  intros Hatob Hascii. unfold b64DecodeUnicode.
  rewrite Hatob, byte_copy_id by exact (atob_bytes _ _ Hatob).
  rewrite decode_ascii by exact Hascii. reflexivity.
Qed.

End MoreDecoding.

(** ** The hidden phrases and the request *)

(** X4. The table is searched in order and the first entry whose decoded
    key equals the trimmed prompt answers, whatever follows it. *)
Theorem easterEgg_first_match (t : jsstring)
    (before after : list (jsstring * jsstring)) (key val : jsstring) :
  Forall (λ kv, t ≠ (b64DecodeUnicode kv.1).2) before →
  t = (b64DecodeUnicode key).2 →
  (easterEgg t (before ++ (key, val) :: after)).2
  = Some {| AIResponse.explanation := JStr (b64DecodeUnicode val).2;
            AIResponse.actionType := JStr (lit "advice");
            AIResponse.robotData := Missing |}.
Proof.
  intros Hbefore Hkey. induction Hbefore as [| [k v] rest Hne _ IH].
  - cbn [app easterEgg]. destruct (b64DecodeUnicode key) as [log1 decodedKey].
    cbn [snd] in Hkey. subst t. unfold JSString.eqb.
    rewrite bool_decide_eq_true_2 by reflexivity.
    destruct (b64DecodeUnicode val). reflexivity.
  - cbn [app easterEgg fst snd] in *.
    destruct (b64DecodeUnicode k) as [log1 decodedKey]. cbn [snd] in Hne.
    unfold JSString.eqb. rewrite bool_decide_eq_false_2 by exact Hne.
    destruct (easterEgg t (rest ++ (key, val) :: after)). exact IH.
Qed.

Lemma b64DecodeUnicode_log_quiet (str : jsstring) :
  existsb isNetworkCall (b64DecodeUnicode str).1 = false.
Proof. unfold b64DecodeUnicode. destruct (Base64.atob str); reflexivity. Qed.

Lemma easterEgg_log_quiet (t : jsstring) (entries : list (jsstring * jsstring)) :
  existsb isNetworkCall (easterEgg t entries).1 = false.
Proof.
  induction entries as [| [key val] rest IH]; [reflexivity |].
  cbn [easterEgg]. pose proof (b64DecodeUnicode_log_quiet key) as Hk.
  pose proof (b64DecodeUnicode_log_quiet val) as Hv.
  destruct (b64DecodeUnicode key) as [log1 decodedKey].
  destruct (JSString.eqb t decodedKey).
  - destruct (b64DecodeUnicode val) as [log2 text]. cbn [fst] in *.
    rewrite existsb_app, Hk, Hv. reflexivity.
  - destruct (easterEgg t rest) as [log2 found]. cbn [fst] in *.
    rewrite existsb_app, Hk, IH. reflexivity.
Qed.

Lemma easterEgg_log_empty (t : jsstring) (entries : list (jsstring * jsstring)) :
  Forall (λ kv, (b64DecodeUnicode kv.1).1 = [] ∧ (b64DecodeUnicode kv.2).1 = [])
    entries →
  (easterEgg t entries).1 = [].
Proof.
  induction 1 as [| [key val] rest [Hk Hv] _ IH]; [reflexivity |].
  cbn [easterEgg fst snd] in *.
  destruct (b64DecodeUnicode key) as [log1 decodedKey].
  destruct (JSString.eqb t decodedKey).
  - destruct (b64DecodeUnicode val) as [log2 text]. cbn [fst] in *.
    subst. reflexivity.
  - destruct (easterEgg t rest) as [log2 found]. cbn [fst] in *.
    subst. reflexivity.
Qed.

Lemma EGGS_log_empty (t : jsstring) : (easterEgg t EGGS).1 = [].
Proof. apply easterEgg_log_empty. repeat constructor. Qed.

Section MoreProperties.

Context {RobotState MotorLibrary : Type}.
Variable systemPrompt : RobotState → MotorLibrary → jsstring.
Variable JSON_parse : jsstring → Completion JSValue.
Variable numberToString : float → jsstring.

Local Abbreviation run :=
  (generateRobotFromPrompt systemPrompt JSON_parse numberToString).

(** X5. The generation service is called exactly when no hidden phrase
    matches the trimmed prompt and a credential is configured. *)
Theorem request_made_iff_reached (w : World) (prompt : jsstring)
    (currentRobot : RobotState) (motorLibrary : MotorLibrary) :
  existsb isNetworkCall (run w prompt currentRobot motorLibrary).1 = true
  ↔ reachesRequest w prompt.
Proof.
  unfold reachesRequest, generateRobotFromPrompt.
  pose proof (easterEgg_log_quiet (trim prompt) EGGS) as Hquiet.
  destruct (easterEgg (trim prompt) EGGS) as [log [egg |]]; cbn [fst snd] in *.
  - rewrite Hquiet. split; [discriminate | intros [? _]; discriminate].
  - destruct (credentialMissing w).
    + cbn [fst]. rewrite existsb_app, Hquiet.
      split; [discriminate | intros [_ ?]; discriminate].
    + destruct (generateContent w _ ≫= _); cbn [fst];
        rewrite existsb_app, orb_true_iff; (split; [done | intros _; by right]).
Qed.

Lemma run_log_after_request (w : World) (prompt : jsstring)
    (currentRobot : RobotState) (motorLibrary : MotorLibrary) :
  reachesRequest w prompt →
  (run w prompt currentRobot motorLibrary).1
  = GenerateContent (buildRequest systemPrompt prompt currentRobot motorLibrary)
    :: match generateContent w (buildRequest systemPrompt prompt currentRobot motorLibrary)
             ≫= handleReply JSON_parse numberToString with
       | Normal _ => []
       | Throw _ => [ConsoleError "Gemini generation failed"]
       end.
Proof.
  intros [Hegg Hcred]. unfold generateRobotFromPrompt.
  pose proof (EGGS_log_empty (trim prompt)) as Hlog.
  destruct (easterEgg (trim prompt) EGGS) as [log found].
  cbn [fst snd] in *. subst log found. rewrite Hcred.
  destruct (generateContent w _ ≫= _); reflexivity.
Qed.

(** X6. A call that gets as far as the request makes one request, with the
    prompt as it was given (not trimmed), and logs nothing else unless the
    [try] block throws: a null result for a missing or empty reply text, or
    for an empty extracted string, is silent, while a failing service is
    reported once on the console. *)
Theorem request_log (w : World) (prompt : jsstring)
    (currentRobot : RobotState) (motorLibrary : MotorLibrary) :
  reachesRequest w prompt →
  let request := buildRequest systemPrompt prompt currentRobot motorLibrary in
  let log := (run w prompt currentRobot motorLibrary).1 in
  contents request = prompt
  ∧ (log = [GenerateContent request]
     ∨ log = [GenerateContent request; ConsoleError "Gemini generation failed"])
  ∧ (∀ e, generateContent w request = Throw e →
       log = [GenerateContent request; ConsoleError "Gemini generation failed"])
  ∧ (generateContent w request = Normal None → log = [GenerateContent request])
  ∧ (generateContent w request = Normal (Some []) → log = [GenerateContent request])
  ∧ (∀ text, generateContent w request = Normal (Some text) →
       Extraction.extractJson text = Some [] →
       log = [GenerateContent request]).
Proof.
  intros Hreach request log. subst log request.
  rewrite (run_log_after_request _ _ _ _ Hreach).
  split; [reflexivity |]. split; [| repeat split].
  - destruct (generateContent w _ ≫= _); [by left | by right].
  - intros e ->. reflexivity.
  - intros ->. reflexivity.
  - intros ->. reflexivity.
  - intros text -> Hext. cbn [mbind Completion_bind].
    unfold handleReply. destruct text; [reflexivity |]. rewrite Hext. reflexivity.
Qed.

Lemma handleReply_parse_ext (parse1 parse2 : jsstring → Completion JSValue)
    (text : option jsstring) :
  (∀ s, s ≠ [] → parse1 s = parse2 s) →
  handleReply parse1 numberToString text = handleReply parse2 numberToString text.
Proof.
  intros Hagree. unfold handleReply.
  destruct text as [[| c text] |]; try reflexivity.
  destruct (Extraction.extractJson (c :: text)) as [[| c' js] |]; try reflexivity.
  unfold buildResponse. rewrite Hagree by discriminate. reflexivity.
Qed.

(** X7. [JSON.parse] is never handed the empty string: two parsers that
    agree on every other string give the same log and the same result in
    every call. *)
Theorem empty_string_never_parsed (parse1 parse2 : jsstring → Completion JSValue)
    (w : World) (prompt : jsstring)
    (currentRobot : RobotState) (motorLibrary : MotorLibrary) :
  (∀ s, s ≠ [] → parse1 s = parse2 s) →
  generateRobotFromPrompt systemPrompt parse1 numberToString w prompt
    currentRobot motorLibrary
  = generateRobotFromPrompt systemPrompt parse2 numberToString w prompt
      currentRobot motorLibrary.
Proof.
  intros Hagree. unfold generateRobotFromPrompt.
  destruct (easterEgg (trim prompt) EGGS) as [log [egg |]]; [reflexivity |].
  destruct (credentialMissing w); [reflexivity |].
  destruct (generateContent w _) as [text | e]; [| reflexivity].
  cbn [mbind Completion_bind].
  rewrite (handleReply_parse_ext parse1 parse2 text Hagree). reflexivity.
Qed.

(** X8. A reply that parses to a value without [robotData], or with a
    falsy one ([null], [0], the empty string, [false]), is answered with a
    response whose [robotData] is [undefined] and whose [explanation] and
    [actionType] are whatever the parsed value has under these names, be it
    nothing: the reply is not checked against the requested schema. *)
Theorem reply_without_robotData (w : World) (prompt : jsstring)
    (currentRobot : RobotState) (motorLibrary : MotorLibrary)
    (text jsonString : jsstring) (result : JSValue) :
  reachesRequest w prompt →
  generateContent w (buildRequest systemPrompt prompt currentRobot motorLibrary)
  = Normal (Some text) →
  Extraction.extractJson text = Some jsonString →
  jsonString ≠ [] →
  JSON_parse jsonString = Normal result →
  JS.isNullish result = false →
  JS.toBoolean (JS.prop result "robotData") = false →
  (run w prompt currentRobot motorLibrary).2
  = Normal (Some {| AIResponse.explanation := JS.prop result "explanation";
                    AIResponse.actionType := JS.prop result "actionType";
                    AIResponse.robotData := Undefined |}).
Proof.
  intros Hreach Hgen Hext Hne Hparse Hres Hfalsy.
  rewrite (run_after_request _ _ _ _ _ _ _ Hreach), Hgen.
  cbn [mbind Completion_bind].
  destruct text as [| c text]; [injection Hext as <-; contradiction |].
  rewrite (handleReply_candidate _ _ _ _ _ Hext).
  destruct jsonString as [| c' js]; [contradiction |].
  rewrite (buildResponse_payload _ _ _ _ _ Hparse (get_present _ _ Hres)), Hfalsy.
  reflexivity.
Qed.

End MoreProperties.

(** ** The two extraction rules *)

Section MoreExtraction.

Import Extraction ExtractionSpec.

Lemma beforeFirst_split (s w : jsstring) :
  beforeFirst fence s = Some w → ∃ rest, s = w ++ fence ++ rest.
Proof.
  revert w. induction s as [| c s IH]; intros w; cbn [beforeFirst].
  - destruct (stripPrefix fence []) eqn:H; [| discriminate].
    intros [= <-]. apply stripPrefix_Some in H. eauto.
  - destruct (stripPrefix fence (c :: s)) eqn:H.
    + intros [= <-]. apply stripPrefix_Some in H. eauto.
    + destruct (beforeFirst fence s) as [w' |]; [| discriminate].
      intros [= <-]. destruct (IH w' eq_refl) as [rest ->]. eauto.
Qed.

Lemma beforeFirst_clean (s w : jsstring) :
  beforeFirst fence s = Some w → ∀ a b, w ≠ a ++ fence ++ b.
Proof.
  revert w. induction s as [| c s IH]; intros w; cbn [beforeFirst].
  - destruct (stripPrefix fence []); [| discriminate].
    intros [= <-] a b H. destruct a; discriminate H.
  - destruct (stripPrefix fence (c :: s)) eqn:Hhere.
    + intros [= <-] a b H. destruct a; discriminate H.
    + destruct (beforeFirst fence s) as [w' |] eqn:Hw; [| discriminate].
      intros [= <-] a b H. destruct a as [| x a].
      * destruct (beforeFirst_split _ _ Hw) as [rest ->].
        cbn [app] in H. rewrite fence_backticks in H, Hhere.
        injection H as -> H. rewrite H in Hhere.
        cbn [app stripPrefix N.eqb Pos.eqb] in Hhere. discriminate.
      * injection H as _ H. exact (IH w' eq_refl a b H).
Qed.

Lemma beforeFirst_found (a b : jsstring) :
  is_Some (beforeFirst fence (a ++ fence ++ b)).
Proof.
  induction a as [| c a IH].
  - rewrite fence_backticks. cbn [app beforeFirst stripPrefix N.eqb Pos.eqb]. eauto.
  - cbn [app beforeFirst].
    destruct (stripPrefix fence (c :: a ++ fence ++ b)); [eauto |].
    destruct IH as [w ->]. eauto.
Qed.

Lemma beforeFirst_cons (c : N) (s : jsstring) :
  is_Some (beforeFirst fence s) → is_Some (beforeFirst fence (c :: s)).
Proof.
  intros [w Hw]. cbn [beforeFirst].
  destruct (stripPrefix fence (c :: s)); [eauto |]. rewrite Hw. eauto.
Qed.

Lemma afterFirst_found (pre rest : jsstring) :
  is_Some (beforeFirst fence rest) →
  ∃ body, afterFirst fence (pre ++ fence ++ rest) = Some body
          ∧ is_Some (beforeFirst fence body).
Proof.
  intros Hrest. induction pre as [| c pre IH].
  - exists rest. split; [| exact Hrest].
    rewrite fence_backticks. cbn [app afterFirst stripPrefix N.eqb Pos.eqb].
    reflexivity.
  - cbn [app afterFirst]. destruct (stripPrefix fence (c :: pre ++ fence ++ rest)) as [body |] eqn:Hhere;
      [| exact IH].
    exists body. split; [reflexivity |].
    apply stripPrefix_Some in Hhere. rewrite fence_backticks in Hhere.
    destruct pre as [| x [| y pre]]; cbn [app] in Hhere; simplify_eq.
    + by apply beforeFirst_cons.
    + by do 2 apply beforeFirst_cons.
    + change (is_Some (beforeFirst fence (pre ++ fence ++ rest))).
      apply beforeFirst_found.
Qed.

(** X9. The pattern finds a fenced block exactly in the texts that hold two
    fences one after the other, without overlap. *)
Theorem fenced_block_iff_two_fences (text : jsstring) :
  (∃ inner, RegExp.matchGroup1 jsonBlock text = Some (Some inner))
  ↔ ∃ pre mid post, text = pre ++ fence ++ mid ++ fence ++ post.
Proof.
  rewrite matchGroup1_jsonBlock. unfold fencedContent. split.
  - intros [inner H].
    destruct (afterFirst fence text) as [body |] eqn:Hbody; [| discriminate].
    cbn [mbind option_bind] in H.
    destruct (beforeFirst fence (dropTag body)) as [w |] eqn:Hw; [| discriminate].
    apply afterFirst_split in Hbody as [pre ->].
    apply beforeFirst_split in Hw as [post Hw].
    destruct (dropTag_suffix body) as [tag Htag].
    exists pre, (tag ++ w), post. rewrite Htag, Hw, <- !app_assoc. reflexivity.
  - intros (pre & mid & post & ->).
    destruct (afterFirst_found pre (mid ++ fence ++ post) (beforeFirst_found _ _))
      as (body & -> & Hbody).
    cbn [mbind option_bind].
    destruct (beforeFirst fence (dropTag body)) as [w |] eqn:Hw.
    + cbn [mbind option_bind fmap option_fmap option_map]. eauto.
    + apply dropTag_no_fence in Hw. rewrite Hw in Hbody.
      destruct Hbody as [? [=]].
Qed.

Lemma trimStart_head (s : jsstring) :
  trimStart s = [] ∨ ∃ c r, trimStart s = c :: r ∧ isWhiteSpace c = false.
Proof.
  induction s as [| c s IH]; [by left |].
  cbn [trimStart]. destruct (isWhiteSpace c) eqn:Hc; [exact IH | right; eauto].
Qed.

Lemma trimStart_suffix (s : jsstring) : ∃ l, s = l ++ trimStart s.
Proof.
  induction s as [| c s [l IH]]; [by exists [] |].
  cbn [trimStart]. destruct (isWhiteSpace c).
  - exists (c :: l). cbn [app]. rewrite <- IH. reflexivity.
  - by exists [].
Qed.

Lemma trimEnd_prefix (s : jsstring) : ∃ r, s = trimEnd s ++ r.
Proof.
  induction s as [| c s [r IH]]; [by exists [] |].
  rewrite trimEnd_cons.
  destruct (isWhiteSpace c && bool_decide (trimEnd s = [])).
  - by exists (c :: s).
  - exists r. cbn [app]. rewrite <- IH. reflexivity.
Qed.

Lemma trimEnd_trimEnd (s : jsstring) : trimEnd (trimEnd s) = trimEnd s.
Proof.
  induction s as [| c s IH]; [reflexivity |].
  rewrite trimEnd_cons.
  destruct (isWhiteSpace c && bool_decide (trimEnd s = [])) eqn:Hcase;
    [reflexivity |].
  rewrite trimEnd_cons, IH, Hcase. reflexivity.
Qed.

Lemma trim_trimmed (s : jsstring) :
  trimStart (trim s) = trim s ∧ trimEnd (trim s) = trim s.
Proof.
  unfold trim. split; [| apply trimEnd_trimEnd].
  destruct (trimStart_head s) as [-> | (c & r & -> & Hc)]; [reflexivity |].
  rewrite trimEnd_cons, Hc. cbn [andb trimStart]. rewrite Hc. reflexivity.
Qed.

Lemma trim_infix (s : jsstring) : ∃ l r, s = l ++ trim s ++ r.
Proof.
  unfold trim. destruct (trimStart_suffix s) as [l Hl].
  destruct (trimEnd_prefix (trimStart s)) as [r Hr].
  exists l, r. rewrite <- Hr. exact Hl.
Qed.

(** X10. The content taken from a fenced block neither starts nor ends
    with white space and holds no fence. *)
Theorem fenced_content_is_trimmed (text inner : jsstring) :
  RegExp.matchGroup1 jsonBlock text = Some (Some inner) →
  trimStart inner = inner ∧ trimEnd inner = inner
  ∧ ∀ a b, inner ≠ a ++ fence ++ b.
Proof.
  rewrite matchGroup1_jsonBlock. unfold fencedContent.
  destruct (afterFirst fence text) as [body |]; [| discriminate].
  cbn [mbind option_bind].
  destruct (beforeFirst fence (dropTag body)) as [w |] eqn:Hw; [| discriminate].
  cbn [mbind option_bind fmap option_fmap option_map]. intros [= <-].
  destruct (trim_trimmed w) as [Hs He]. split; [exact Hs |]. split; [exact He |].
  intros a b Hin. destruct (trim_infix w) as (l & r & Hlr).
  apply (beforeFirst_clean _ _ Hw (l ++ a) (b ++ r)).
  rewrite Hlr at 1. rewrite Hin, <- !app_assoc. reflexivity.
Qed.

Lemma fromFirst_split (c : N) (s suf : jsstring) :
  fromFirst c s = Some suf →
  ∃ pre rest, s = pre ++ suf ∧ suf = c :: rest ∧ c ∉ pre.
Proof.
  induction s as [| d s IH]; [discriminate |].
  cbn [fromFirst]. destruct (N.eqb_spec d c) as [-> | Hd].
  - intros [= <-]. exists [], s. repeat split. apply not_elem_of_nil.
  - intros H. destruct (IH H) as (pre & rest & -> & -> & Hpre).
    exists (d :: pre), rest. repeat split.
    intros [-> | Hin]%elem_of_cons; [contradiction | exact (Hpre Hin)].
Qed.

Lemma throughLast_none (c : N) (s : jsstring) :
  throughLast c s = None → c ∉ s.
Proof.
  induction s as [| d s IH]; [intros _; apply not_elem_of_nil |].
  cbn [throughLast]. destruct (throughLast c s); [discriminate |].
  destruct (N.eqb_spec d c) as [| Hd]; [discriminate |].
  intros _ [-> | Hin]%elem_of_cons; [contradiction | exact (IH eq_refl Hin)].
Qed.

Lemma throughLast_split (c : N) (s span : jsstring) :
  throughLast c s = Some span →
  ∃ init post, span = init ++ [c] ∧ s = span ++ post ∧ c ∉ post.
Proof.
  revert span. induction s as [| d s IH]; intros span; [discriminate |].
  cbn [throughLast]. destruct (throughLast c s) as [span' |] eqn:Hs.
  - intros [= <-]. destruct (IH span' eq_refl) as (init & post & -> & -> & Hpost).
    exists (d :: init), post. repeat split. exact Hpost.
  - destruct (N.eqb_spec d c) as [-> | Hd]; [| discriminate].
    intros [= <-]. exists [], s. repeat split. exact (throughLast_none _ _ Hs).
Qed.

(** X11. When the text has no fenced block and the extracted string is not
    empty, it is the part of the text that starts at the first opening
    brace and ends at the last closing brace: no opening brace comes before
    it and no closing brace after it. *)
Theorem brace_span_is_outermost (text : jsstring) (c : N) (s : jsstring) :
  RegExp.matchGroup1 jsonBlock text = None →
  extractJson text = Some (c :: s) →
  ∃ pre mid post,
    text = pre ++ (c :: s) ++ post
    ∧ c :: s = 123 :: mid ++ [125]
    ∧ (123 ∉ pre) ∧ (125 ∉ post).
Proof.
  intros Hnone. pose proof (braceSpan_indices text) as Hidx.
  unfold extractJson. rewrite Hnone.
  destruct (negb _ && negb _ && _); [| discriminate].
  intros [= Hsub]. rewrite Hsub in Hidx. clear Hsub. unfold braceSpan in Hidx.
  destruct (fromFirst 123 text) as [suf |] eqn:Hsuf; [| discriminate].
  cbn [mbind option_bind] in Hidx.
  destruct (throughLast 125 suf) as [span |] eqn:Hspan; [| discriminate].
  subst span.
  destruct (fromFirst_split _ _ _ Hsuf) as (pre & rest & -> & -> & Hpre).
  destruct (throughLast_split _ _ _ Hspan) as (init & post & Hinit & Hpost & Hclean).
  cbn [app] in Hpost. injection Hpost as <- Hrest.
  destruct init as [| x mid]; [discriminate Hinit |].
  injection Hinit as <- ->.
  exists pre, mid, post. cbn [app]. rewrite <- Hrest. repeat split; assumption.
Qed.

End MoreExtraction.

(** ** The tables of the mapper *)

Section MoreMapping.

Variable numberToString : float → jsstring.

Local Abbreviation keyOf :=
  (fun d : JSValue => toPropertyKey numberToString (JS.prop d "id")).

Lemma or_truthy (a b : JSValue) :
  JS.toBoolean b = true → JS.toBoolean (JS.or a b) = true.
Proof. intros Hb. unfold JS.or. destruct (JS.toBoolean a) eqn:Ha; assumption. Qed.

Lemma or_zero (a : JSValue) : zeroOrTruthy (JS.or a (JNum 0)).
Proof.
  unfold zeroOrTruthy, JS.or. destruct (JS.toBoolean a) eqn:Ha; [by right | by left].
Qed.

Lemma coalesce_present (a b : JSValue) :
  JS.isNullish b = false → JS.isNullish (JS.coalesce a b) = false.
Proof. intros Hb. unfold JS.coalesce. destruct (JS.isNullish a) eqn:Ha; assumption. Qed.

(** Induction on a value, with the property in hand for the elements of an
    array. *)
Lemma JSValue_elements_ind (P : JSValue → Prop) :
  P JUndefined → P JNull → (∀ b, P (JBool b)) → (∀ n, P (JNum n)) →
  (∀ s, P (JStr s)) → (∀ elems, Forall P elems → P (JArr elems)) →
  (∀ props, P (JObj props)) →
  ∀ v, P v.
Proof.
  intros Hu Hn Hb Hnum Hs Harr Hobj. fix IH 1.
  intros [| | b | n | s | elems | props];
    [exact Hu | exact Hn | apply Hb | apply Hnum | apply Hs | | apply Hobj].
  apply Harr. induction elems as [| e es IHes]; constructor; [apply IH | exact IHes].
Qed.

(** ToString completes on the values [stringable] accepts and throws a
    [TypeError] on the others. *)
Lemma toString_completion (v : JSValue) :
  if JS.stringable v then ∃ s, toString numberToString v = Normal s
  else toString numberToString v = Throw TypeError.
Proof.
  induction v as [| | b | n | s | elems IH | props] using JSValue_elements_ind;
    cbn [JS.stringable toString]; try (eexists; reflexivity).
  - destruct b; eexists; reflexivity.
  - assert (Hparts :
      if forallb (λ e, JS.isNullish e || JS.stringable e) elems
      then ∃ parts, eachPart (λ e, toString numberToString e) elems = Normal parts
      else eachPart (λ e, toString numberToString e) elems = Throw TypeError).
    { induction IH as [| e es He _ IHes]; cbn [forallb eachPart];
        [eexists; reflexivity |].
      destruct (JS.isNullish e); cbn [orb andb mbind Completion_bind mret Completion_ret].
      - destruct (forallb _ es); [destruct IHes as [parts ->] | rewrite IHes];
          [eexists |]; reflexivity.
      - destruct (JS.stringable e); [destruct He as [s ->] | rewrite He; reflexivity].
        cbn [andb mbind Completion_bind].
        destruct (forallb _ es); [destruct IHes as [parts ->] | rewrite IHes];
          [eexists |]; reflexivity. }
    destruct (forallb _ elems); [destruct Hparts as [parts ->] | rewrite Hparts];
      [eexists |]; reflexivity.
  - destruct (JS.hasOwn _ props); [reflexivity | eexists; reflexivity].
Qed.

Lemma mappable_key (d : JSValue) :
  mappable d = true →
  JS.isNullish d = false ∧ ∃ k, keyOf d = Normal k.
Proof.
  unfold mappable. intros [Hn Hs]%andb_true_iff.
  apply negb_true_iff in Hn. split; [exact Hn |].
  pose proof (toString_completion (JS.prop d "id")) as Hc.
  rewrite Hs in Hc. exact Hc.
Qed.

Lemma unmappable_cases (d : JSValue) :
  mappable d = false →
  JS.isNullish d = true
  ∨ JS.isNullish d = false ∧ keyOf d = Throw TypeError.
Proof.
  unfold mappable. destruct (JS.isNullish d); [by left |].
  cbn [negb andb]. intros Hs. right. split; [reflexivity |].
  pose proof (toString_completion (JS.prop d "id")) as Hc.
  rewrite Hs in Hc. exact Hc.
Qed.

Lemma key_mappable (d : JSValue) (k : jsstring) :
  JS.isNullish d = false → keyOf d = Normal k → mappable d = true.
Proof.
  intros Hn Hk. destruct (mappable d) eqn:Hm; [reflexivity |].
  destruct (unmappable_cases d Hm) as [Hnull | [_ Hthrow]]; congruence.
Qed.

(** The record built from a link descriptor, whatever the table holds. *)
Lemma mapLink_record (l : JSValue) (k : jsstring) :
  JS.isNullish l = false → keyOf l = Normal k →
  ∃ link,
    (∀ acc, mapLink numberToString acc l = Normal (JS.assign k link acc))
    ∧ linkOf l link.
Proof.
  intros H Hk. eexists. split.
  { intros acc. unfold mapLink. rewrite !get_present by exact H.
    cbn [mbind Completion_bind]. rewrite Hk. reflexivity. }
  split; [reflexivity |]. split; [reflexivity |].
  split; [repeat split |].
  repeat split; apply or_truthy; reflexivity.
Qed.

Lemma mapJoint_record (j : JSValue) (k : jsstring) :
  JS.isNullish j = false → keyOf j = Normal k →
  ∃ joint,
    (∀ acc, mapJoint numberToString acc j = Normal (JS.assign k joint acc))
    ∧ jointOf j joint.
Proof.
  intros H Hk. eexists. split.
  { intros acc. unfold mapJoint. rewrite !get_present by exact H.
    cbn [mbind Completion_bind]. rewrite Hk. reflexivity. }
  split; [reflexivity |]. split; [reflexivity |].
  split; [repeat split |].
  repeat split;
    first [ apply or_zero | apply or_truthy; reflexivity
          | apply coalesce_present; reflexivity ].
Qed.

Lemma mapLink_storing : storing numberToString (mapLink numberToString) linkOf.
Proof.
  split.
  - intros acc d [Hn | [Hn Hk]]%unmappable_cases.
    + by apply mapLink_throws.
    + by apply mapLink_key_throws.
  - intros d (Hn & k & Hk)%mappable_key.
    destruct (mapLink_record d k Hn Hk) as (link & Hrun & Hrest). eauto.
Qed.

Lemma mapJoint_storing : storing numberToString (mapJoint numberToString) jointOf.
Proof.
  split.
  - intros acc d [Hn | [Hn Hk]]%unmappable_cases.
    + by apply mapJoint_throws.
    + by apply mapJoint_key_throws.
  - intros d (Hn & k & Hk)%mappable_key.
    destruct (mapJoint_record d k Hn Hk) as (joint & Hrun & Hrest). eauto.
Qed.

Section Storing.

Context {R : Type}.
Variable f : gmap jsstring R → JSValue → Completion (gmap jsstring R).
Variable P : JSValue → R → Prop.
Hypothesis Hf : storing numberToString f P.

Lemma assign_lookup (k k' : jsstring) (r : R) (acc : gmap jsstring R) :
  JS.assign k r acc !! k'
  = if decide (k ≠ protoKey ∧ k = k') then Some r else acc !! k'.
Proof.
  unfold JS.assign, JSString.eqb, protoKey. case_bool_decide as Hk.
  - destruct (decide _) as [[Hne _] |]; [contradiction | reflexivity].
  - destruct (decide _) as [[_ <-] | Hno].
    + apply lookup_insert_eq.
    + apply lookup_insert_ne. intros <-. apply Hno. split; [exact Hk | reflexivity].
Qed.

(** One step of the loop, read backwards. *)
Lemma forEach_step (acc m : gmap jsstring R) (d : JSValue) (ds : list JSValue) :
  forEach f acc (d :: ds) = Normal m →
  mappable d = true
  ∧ ∃ k r, keyOf d = Normal k
           ∧ (∀ acc0, f acc0 d = Normal (JS.assign k r acc0)) ∧ P d r
           ∧ forEach f (JS.assign k r acc) ds = Normal m.
Proof.
  cbn [forEach]. destruct Hf as [Hthrow Hstore].
  destruct (mappable d) eqn:Hd.
  - destruct (Hstore d Hd) as (k & r & Hk & Hrun & HP). rewrite Hrun.
    cbn [mbind Completion_bind]. eauto 8.
  - rewrite (Hthrow acc d Hd). discriminate.
Qed.

Lemma forEach_completion (ds : list JSValue) (acc : gmap jsstring R) :
  Forall (λ d, mappable d = true) ds ∧ (∃ m, forEach f acc ds = Normal m)
  ∨ Exists (λ d, mappable d = false) ds ∧ forEach f acc ds = Throw TypeError.
Proof.
  destruct Hf as [Hthrow Hstore].
  revert acc. induction ds as [| d ds IH]; intros acc.
  - left. split; [constructor | cbn; eauto].
  - cbn [forEach]. destruct (mappable d) eqn:Hd.
    + destruct (Hstore d Hd) as (k & r & _ & Hrun & _). rewrite Hrun.
      cbn [mbind Completion_bind].
      destruct (IH (JS.assign k r acc)) as [[Hall Hm] | [Hex Hthrown]].
      * left. split; [by constructor | exact Hm].
      * right. split; [by apply Exists_cons_tl | exact Hthrown].
    + right. rewrite (Hthrow acc d Hd). split; [by constructor | reflexivity].
Qed.

Lemma forEach_entries (ds : list JSValue) (acc m : gmap jsstring R) :
  forEach f acc ds = Normal m →
  ∀ k r, m !! k = Some r →
    acc !! k = Some r
    ∨ k ≠ protoKey ∧ ∃ d, d ∈ ds ∧ keyOf d = Normal k ∧ P d r.
Proof.
  revert acc. induction ds as [| d ds IH]; intros acc Hrun k r Hk.
  - injection Hrun as <-. by left.
  - apply forEach_step in Hrun as (_ & k0 & r0 & Hk0 & _ & HP & Hrun).
    destruct (IH _ Hrun k r Hk) as [Hold | (Hne & d' & Hin & Hkey & HP')].
    + rewrite assign_lookup in Hold. destruct (decide _) as [[Hne <-] |].
      * injection Hold as <-. right. split; [exact Hne |].
        exists d. split; [apply elem_of_cons; by left | done].
      * by left.
    + right. split; [exact Hne |]. exists d'.
      split; [apply elem_of_cons; by right | done].
Qed.

Lemma forEach_keeps (ds : list JSValue) (acc m : gmap jsstring R) (k : jsstring) :
  forEach f acc ds = Normal m → is_Some (acc !! k) → is_Some (m !! k).
Proof.
  revert acc. induction ds as [| d ds IH]; intros acc Hrun Hk.
  - injection Hrun as <-. exact Hk.
  - apply forEach_step in Hrun as (_ & k0 & r0 & _ & _ & _ & Hrun).
    apply (IH _ Hrun). rewrite assign_lookup. destruct (decide _); eauto.
Qed.

Lemma forEach_stored (ds : list JSValue) (acc m : gmap jsstring R)
    (d : JSValue) (k : jsstring) :
  forEach f acc ds = Normal m → d ∈ ds → keyOf d = Normal k → k ≠ protoKey →
  is_Some (m !! k).
Proof.
  revert acc. induction ds as [| d0 ds IH]; intros acc Hrun Hin Hk Hkey.
  - apply elem_of_nil in Hin. contradiction.
  - apply forEach_step in Hrun as (_ & k0 & r0 & Hk0 & _ & _ & Hrun).
    apply elem_of_cons in Hin as [<- | Hin].
    + rewrite Hk in Hk0. injection Hk0 as <-.
      apply (forEach_keeps _ _ _ _ Hrun).
      rewrite assign_lookup, decide_True by (split; [exact Hkey | reflexivity]).
      eauto.
    + exact (IH _ Hrun Hin Hk Hkey).
Qed.

Lemma assign_size (k : jsstring) (r : R) (acc : gmap jsstring R) :
  (size (JS.assign k r acc) ≤ S (size acc))%nat.
Proof.
  unfold JS.assign. destruct (JSString.eqb _ _); [lia |].
  rewrite map_size_insert. destruct (acc !! k); unfold id; lia.
Qed.

Lemma forEach_size (ds : list JSValue) (acc m : gmap jsstring R) :
  forEach f acc ds = Normal m → (size m ≤ size acc + length ds)%nat.
Proof.
  revert acc. induction ds as [| d ds IH]; intros acc Hrun.
  - injection Hrun as <-. lia.
  - apply forEach_step in Hrun as (_ & k0 & r0 & _ & _ & _ & Hrun).
    specialize (IH _ Hrun). pose proof (assign_size k0 r0 acc).
    cbn [length]. lia.
Qed.

Lemma forEach_untouched (ds : list JSValue) (acc m : gmap jsstring R) (k : jsstring) :
  forEach f acc ds = Normal m → (∀ d, d ∈ ds → keyOf d ≠ Normal k) →
  m !! k = acc !! k.
Proof.
  revert acc. induction ds as [| d ds IH]; intros acc Hrun Hother.
  - injection Hrun as <-. reflexivity.
  - apply forEach_step in Hrun as (_ & k0 & r0 & Hk0 & _ & _ & Hrun).
    rewrite (IH _ Hrun) by (intros d' Hd'; apply Hother, elem_of_cons; by right).
    rewrite assign_lookup. destruct (decide _) as [[_ <-] |]; [| reflexivity].
    destruct (Hother d (proj2 (elem_of_cons _ _ _) (or_introl eq_refl)) Hk0).
Qed.

Lemma forEach_last (before after : list JSValue) (d : JSValue) (k : jsstring)
    (acc m : gmap jsstring R) :
  forEach f acc (before ++ d :: after) = Normal m →
  keyOf d = Normal k →
  k ≠ protoKey →
  (∀ d', d' ∈ after → keyOf d' ≠ Normal k) →
  ∃ r, m !! k = Some r
       ∧ (∀ acc0, f acc0 d = Normal (JS.assign k r acc0)) ∧ P d r.
Proof.
  revert acc. induction before as [| d0 before IH]; intros acc Hrun Hk Hkey Hafter.
  - cbn [app] in Hrun.
    apply forEach_step in Hrun as (_ & k0 & r & Hk0 & Hbuild & HP & Hrun).
    rewrite Hk in Hk0. injection Hk0 as <-.
    exists r. split; [| by split].
    rewrite (forEach_untouched _ _ _ _ Hrun Hafter), assign_lookup.
    rewrite decide_True by (split; [exact Hkey | reflexivity]). reflexivity.
  - cbn [app] in Hrun.
    apply forEach_step in Hrun as (_ & k0 & r0 & _ & _ & _ & Hrun).
    exact (IH _ Hrun Hk Hkey Hafter).
Qed.

End Storing.

Lemma table_completion {R : Type}
    (f : gmap jsstring R → JSValue → Completion (gmap jsstring R))
    (P : JSValue → R → Prop) (v : JSValue) :
  storing numberToString f P →
  Forall (λ d, mappable d = true) (JS.elements v)
  ∧ (∃ m, (if JS.toBoolean v && JS.isArray v
           then forEach f ∅ (JS.elements v) else mret ∅) = Normal m)
  ∨ Exists (λ d, mappable d = false) (JS.elements v)
    ∧ (if JS.toBoolean v && JS.isArray v
       then forEach f ∅ (JS.elements v) else mret ∅) = Throw TypeError.
Proof.
  intros Hf.
  destruct v; cbn [JS.toBoolean JS.isArray JS.elements andb];
    try (left; split; [constructor | rewrite ?andb_false_r; by eexists]).
  apply (forEach_completion f P Hf).
Qed.

Lemma table_entries {R : Type}
    (f : gmap jsstring R → JSValue → Completion (gmap jsstring R))
    (P : JSValue → R → Prop) (v : JSValue) (m : gmap jsstring R) :
  storing numberToString f P →
  JS.isArray v = true ∧ forEach f ∅ (JS.elements v) = Normal m
  ∨ JS.isArray v = false ∧ m = ∅ →
  (∀ k r, m !! k = Some r →
     k ≠ protoKey ∧ ∃ d, d ∈ JS.elements v ∧ keyOf d = Normal k ∧ P d r)
  ∧ (∀ d k, d ∈ JS.elements v → keyOf d = Normal k → k ≠ protoKey →
       is_Some (m !! k))
  ∧ (size m ≤ length (JS.elements v))%nat.
Proof.
  intros Hf [[_ Hrun] | [Harr ->]].
  - split; [| split].
    + intros k r Hk.
      destruct (forEach_entries f P Hf _ _ _ Hrun k r Hk) as [Hold | Hnew];
        [rewrite lookup_empty in Hold; discriminate | exact Hnew].
    + intros d k Hin Hk Hkey. exact (forEach_stored f P Hf _ _ _ d k Hrun Hin Hk Hkey).
    + pose proof (forEach_size f P Hf _ _ _ Hrun) as Hsize.
      rewrite map_size_empty in Hsize. exact Hsize.
  - split; [| split].
    + intros k r Hk. rewrite lookup_empty in Hk. discriminate.
    + intros d k Hin. destruct v; try (apply elem_of_nil in Hin; contradiction).
      discriminate Harr.
    + rewrite map_size_empty. lia.
Qed.

(** X12. Mapping a payload fails exactly when one of the entries of its
    [links] or [joints] array cannot be stored, and then with a
    [TypeError]: the entry is [null] (or [undefined]), or its [id] does not
    convert to a key, being an object with a property [toString] of its
    own or an array that holds one. Every other payload is mapped,
    whatever its descriptors hold. A [links] or [joints] that is not an
    array counts as empty. *)
Theorem mapRobotData_completion (data : JSValue) :
  JS.isNullish data = false →
  Forall (λ d, mappable d = true)
    (JS.elements (JS.prop data "links") ++ JS.elements (JS.prop data "joints"))
  ∧ (∃ rd, mapRobotData numberToString data = Normal rd)
  ∨ Exists (λ d, mappable d = false)
      (JS.elements (JS.prop data "links") ++ JS.elements (JS.prop data "joints"))
    ∧ mapRobotData numberToString data = Throw TypeError.
Proof.
  intros Hdata. unfold mapRobotData. rewrite !get_present by exact Hdata.
  cbn [mbind Completion_bind].
  destruct (table_completion _ _ (JS.prop data "links") mapLink_storing)
    as [[Hlinks [newLinks ->]] | [Hlinks ->]]; cbn [mbind Completion_bind].
  - destruct (table_completion _ _ (JS.prop data "joints") mapJoint_storing)
      as [[Hjoints [newJoints ->]] | [Hjoints ->]]; cbn [mbind Completion_bind].
    + left. split; [apply Forall_app; by split | by eexists].
    + right. split; [apply Exists_app; by right | reflexivity].
  - right. split; [apply Exists_app; by left | reflexivity].
Qed.

(** X13. The keys of the two tables of a mapped payload are the string
    forms of the [id]s of the descriptors, except [__proto__], which
    stores nothing: every descriptor with another key has an entry, every
    entry has a descriptor, and a table has at most as many entries as
    there are descriptors. *)
Theorem table_keys_are_descriptor_ids (data : JSValue) (rd : RobotData.t) :
  mapRobotData numberToString data = Normal rd →
  (∀ k, is_Some (RobotData.links rd !! k)
        ↔ k ≠ protoKey
          ∧ ∃ d, d ∈ JS.elements (JS.prop data "links") ∧ keyOf d = Normal k)
  ∧ (∀ k, is_Some (RobotData.joints rd !! k)
          ↔ k ≠ protoKey
            ∧ ∃ d, d ∈ JS.elements (JS.prop data "joints") ∧ keyOf d = Normal k)
  ∧ (size (RobotData.links rd) ≤ length (JS.elements (JS.prop data "links")))%nat
  ∧ (size (RobotData.joints rd) ≤ length (JS.elements (JS.prop data "joints")))%nat.
Proof.
  intros Hmap. destruct (mapRobotData_tables _ _ _ Hmap) as [Hl Hj].
  destruct (table_entries _ _ _ _ mapLink_storing Hl) as (Hl1 & Hl2 & Hl3).
  destruct (table_entries _ _ _ _ mapJoint_storing Hj) as (Hj1 & Hj2 & Hj3).
  split; [| split; [| split; assumption]].
  - intros k. split.
    + intros [r Hk]. destruct (Hl1 k r Hk) as (Hne & d & Hin & Hkey & _). eauto.
    + intros (Hne & d & Hin & Hkey). exact (Hl2 d k Hin Hkey Hne).
  - intros k. split.
    + intros [r Hk]. destruct (Hj1 k r Hk) as (Hne & d & Hin & Hkey & _). eauto.
    + intros (Hne & d & Hin & Hkey). exact (Hj2 d k Hin Hkey Hne).
Qed.

(** X14. When several link descriptors share an [id], the last one is the
    one that stays: if its key is not [__proto__], the entry under that
    key is the record that mapping this descriptor alone produces. The
    same holds for joints. *)
Theorem last_descriptor_wins (data : JSValue) (rd : RobotData.t)
    (before after : list JSValue) (d : JSValue) (k : jsstring) :
  mapRobotData numberToString data = Normal rd →
  keyOf d = Normal k →
  k ≠ protoKey →
  (∀ d', d' ∈ after → keyOf d' ≠ Normal k) →
  (JS.prop data "links" = JArr (before ++ d :: after) →
   ∃ link, RobotData.links rd !! k = Some link
           ∧ mapLink numberToString ∅ d = Normal (<[k := link]> ∅))
  ∧ (JS.prop data "joints" = JArr (before ++ d :: after) →
     ∃ joint, RobotData.joints rd !! k = Some joint
              ∧ mapJoint numberToString ∅ d = Normal (<[k := joint]> ∅)).
Proof.
  intros Hmap Hk Hkey Hafter. destruct (mapRobotData_tables _ _ _ Hmap) as [Hl Hj].
  assert (Hsingle : ∀ (R : Type) (r : R), JS.assign k r ∅ = <[k := r]> ∅).
  { intros R r. unfold JS.assign, JSString.eqb.
    rewrite bool_decide_eq_false_2 by exact Hkey. reflexivity. }
  split.
  - intros Harr. rewrite Harr in Hl. cbn [JS.isArray JS.elements] in Hl.
    destruct Hl as [[_ Hrun] | [[=] _]].
    destruct (forEach_last _ _ mapLink_storing _ _ _ _ _ _ Hrun Hk Hkey Hafter)
      as (link & Hlook & Hbuild & _).
    exists link. split; [exact Hlook |]. rewrite Hbuild, Hsingle. reflexivity.
  - intros Harr. rewrite Harr in Hj. cbn [JS.isArray JS.elements] in Hj.
    destruct Hj as [[_ Hrun] | [[=] _]].
    destruct (forEach_last _ _ mapJoint_storing _ _ _ _ _ _ Hrun Hk Hkey Hafter)
      as (joint & Hlook & Hbuild & _).
    exists joint. split; [exact Hlook |]. rewrite Hbuild, Hsingle. reflexivity.
Qed.

(** X15. The reply has no say in the constant parts of a record: every
    link of a mapped payload has a collision block with the type and the
    dimensions of its visual block and the fixed red, identity origins and
    the fixed inertia tensor; every joint has zero damping and friction,
    zero armature, an empty motor id and the motor direction 1. *)
Theorem records_have_fixed_parts (data : JSValue) (rd : RobotData.t) :
  mapRobotData numberToString data = Normal rd →
  (∀ k link, RobotData.links rd !! k = Some link → mirrorsVisual link)
  ∧ (∀ k joint, RobotData.joints rd !! k = Some joint → fixedBlocks joint).
Proof.
  intros Hmap. destruct (mapRobotData_tables _ _ _ Hmap) as [Hl Hj].
  destruct (table_entries _ _ _ _ mapLink_storing Hl) as (Hl1 & _).
  destruct (table_entries _ _ _ _ mapJoint_storing Hj) as (Hj1 & _).
  split.
  - intros k link Hk. destruct (Hl1 k link Hk) as (_ & d & _ & _ & HP). apply HP.
  - intros k joint Hk. destruct (Hj1 k joint Hk) as (_ & d & _ & _ & HP). apply HP.
Qed.

Lemma mapRobotData_name (data : JSValue) (rd : RobotData.t) :
  mapRobotData numberToString data = Normal rd →
  RobotData.name rd = JS.or (JS.prop data "name") (JStr (lit "modified_robot")).
Proof.
  unfold mapRobotData. destruct (JS.isNullish data) eqn:Hn.
  { rewrite (get_nullish data "links") by exact Hn. discriminate. }
  rewrite !get_present by exact Hn. cbn [mbind Completion_bind].
  destruct (if JS.toBoolean (JS.prop data "links") && _ then _ else _);
    [| discriminate].
  destruct (if JS.toBoolean (JS.prop data "joints") && _ then _ else _);
    [| discriminate].
  intros [= <-]. reflexivity.
Qed.

(** X16. Nothing falsy is left in a link: in every link of a mapped
    payload the three dimensions, the mass and the colour of the visual
    block are truthy, so none of them is zero, [NaN], empty, [null] or
    [undefined]; and the name of the robot is truthy as well. *)
Theorem links_are_solid (data : JSValue) (rd : RobotData.t) :
  mapRobotData numberToString data = Normal rd →
  JS.toBoolean (RobotData.name rd) = true
  ∧ ∀ k link, RobotData.links rd !! k = Some link → solidLink link.
Proof.
  intros Hmap. split.
  - rewrite (mapRobotData_name _ _ Hmap). apply or_truthy. reflexivity.
  - destruct (mapRobotData_tables _ _ _ Hmap) as [Hl _].
    destruct (table_entries _ _ _ _ mapLink_storing Hl) as (Hl1 & _).
    intros k link Hk. destruct (Hl1 k link Hk) as (_ & d & _ & _ & HP). apply HP.
Qed.

(** X17. In every joint of a mapped payload no limit is [null] or
    [undefined]; the third component of the axis and the motor type are
    truthy, so the third axis component is never zero; and each other
    component of the axis and of the origin is the number zero or a truthy
    value. *)
Theorem joints_are_settled (data : JSValue) (rd : RobotData.t) :
  mapRobotData numberToString data = Normal rd →
  ∀ k joint, RobotData.joints rd !! k = Some joint → settledJoint joint.
Proof.
  intros Hmap. destruct (mapRobotData_tables _ _ _ Hmap) as [_ Hj].
  destruct (table_entries _ _ _ _ mapJoint_storing Hj) as (Hj1 & _).
  intros k joint Hk. destruct (Hj1 k joint Hk) as (_ & d & _ & _ & HP). apply HP.
Qed.

(** X18. A link can be found by its [id]: when the [id] of a link
    descriptor is a string other than [__proto__] and no later descriptor
    has an [id] with this string form, the links table of the mapped
    payload has, under that very string, a record with this [id] and the
    descriptor's [name]. The same holds for joints. *)
Theorem record_found_by_id (data : JSValue) (rd : RobotData.t)
    (before after : list JSValue) (d : JSValue) (id : jsstring) :
  mapRobotData numberToString data = Normal rd →
  JS.prop d "id" = JStr id →
  id ≠ protoKey →
  (∀ d', d' ∈ after → keyOf d' ≠ Normal id) →
  (JS.prop data "links" = JArr (before ++ d :: after) →
   ∃ link, RobotData.links rd !! id = Some link
           ∧ Link.id link = JStr id ∧ Link.name link = JS.prop d "name")
  ∧ (JS.prop data "joints" = JArr (before ++ d :: after) →
     ∃ joint, RobotData.joints rd !! id = Some joint
              ∧ Joint.id joint = JStr id ∧ Joint.name joint = JS.prop d "name").
Proof.
  intros Hmap Hid Hkey Hafter.
  destruct (mapRobotData_tables _ _ _ Hmap) as [Hl Hj].
  assert (Hk : keyOf d = Normal id) by (rewrite Hid; reflexivity).
  split.
  - intros Harr. rewrite Harr in Hl. cbn [JS.isArray JS.elements] in Hl.
    destruct Hl as [[_ Hrun] | [[=] _]].
    destruct (forEach_last _ _ mapLink_storing _ _ _ _ _ _ Hrun Hk Hkey Hafter)
      as (link & Hlook & _ & Hlink & Hname & _).
    exists link. rewrite Hid in Hlink. auto.
  - intros Harr. rewrite Harr in Hj. cbn [JS.isArray JS.elements] in Hj.
    destruct Hj as [[_ Hrun] | [[=] _]].
    destruct (forEach_last _ _ mapJoint_storing _ _ _ _ _ _ Hrun Hk Hkey Hafter)
      as (joint & Hlook & _ & Hjoint & Hname & _).
    exists joint. rewrite Hid in Hjoint. auto.
Qed.

End MoreMapping.

(** ** The further properties at sample inputs *)

Lemma invalid_character_witness :
  b64DecodeUnicode (lit "ab!d") = ([ConsoleWarn "Failed to decode base64 string"], []).
Proof.
  apply (b64DecodeUnicode_invalid_character (lit "ab!d") 33).
  - apply list_elem_of_In. right. right. left. reflexivity.
  - reflexivity.
  - discriminate.
  - reflexivity.
Defined.

Lemma atob_bytes_witness :
  b64DecodeUnicode (lit "aGVsbG8=") = ([], Utf8.decode (lit "hello")).
Proof.
  exact (proj2 (b64DecodeUnicode_decodes_atob_bytes
                  (lit "aGVsbG8=") (lit "hello") eq_refl)).
Defined.

Lemma ascii_witness : b64DecodeUnicode (lit "aGVsbG8=") = ([], lit "hello").
Proof.
  apply (b64DecodeUnicode_ascii (lit "aGVsbG8=") (lit "hello")).
  - reflexivity.
  - repeat constructor; vm_compute; discriminate.
Defined.

Lemma first_match_witness :
  (easterEgg [28789; 36275; 26102; 20195] EGGS).2
  = Some {| AIResponse.explanation := JStr [31069; 20320; 25104; 21151];
            AIResponse.actionType := JStr (lit "advice");
            AIResponse.robotData := Missing |}.
Proof.
  apply (easterEgg_first_match [28789; 36275; 26102; 20195]
           [(lit "6L6+5aaZ56eR5oqA", lit "5Y+R5p2l6LS655S1")]
           [(lit "5Zug5YWL5pav5pm66IO9", lit "56Wd6ICB5p2/5aW95biF77yB");
            (lit "6auY5pOO5py655S1", lit "5oiR54ix5bCP5rS+77yB");
            (lit "5Zyw55Oc5py65LmZ5Lq6", lit "5Y+R5p2l54Oo5Zyw55Oc")]
           (lit "54G16Laz5pe25Luj") (lit "56Wd5L2g5oiQ5Yqf")).
  - repeat constructor. vm_compute. discriminate.
  - reflexivity.
Defined.

Lemma failing_reaches_request : reachesRequest Sample.failing (lit "hello").
Proof. split; reflexivity. Defined.

Lemma prose_reaches_request :
  reachesRequest (Sample.replying (Some Sample.proseReply)) (lit "hello").
Proof. split; reflexivity. Defined.

Lemma request_log_witness :
  (generateRobotFromPrompt Sample.systemPrompt Sample.JSON_parse
     Sample.numberToString Sample.failing (lit "hello") tt tt).1
  = [GenerateContent (buildRequest Sample.systemPrompt (lit "hello") tt tt);
     ConsoleError "Gemini generation failed"].
Proof.
  exact (proj1 (proj2 (proj2 (request_log
                                Sample.systemPrompt Sample.JSON_parse
                                Sample.numberToString Sample.failing (lit "hello")
                                tt tt failing_reaches_request)))
           ServiceError eq_refl).
Defined.

Lemma lenientParse_agrees (s : jsstring) :
  s ≠ [] → Sample.JSON_parse s = Sample.lenientParse s.
Proof.
  intros Hs. unfold Sample.lenientParse, JSString.eqb.
  rewrite bool_decide_eq_false_2 by exact Hs. reflexivity.
Defined.

Lemma empty_string_witness :
  generateRobotFromPrompt Sample.systemPrompt Sample.JSON_parse
    Sample.numberToString (Sample.replying (Some Sample.emptyFenceReply))
    (lit "hello") tt tt
  = generateRobotFromPrompt Sample.systemPrompt Sample.lenientParse
      Sample.numberToString (Sample.replying (Some Sample.emptyFenceReply))
      (lit "hello") tt tt.
Proof.
  exact (empty_string_never_parsed Sample.systemPrompt Sample.numberToString
           Sample.JSON_parse Sample.lenientParse _ _ tt tt lenientParse_agrees).
Defined.

Lemma reply_without_robotData_witness :
  (generateRobotFromPrompt Sample.systemPrompt Sample.JSON_parse
     Sample.numberToString (Sample.replying (Some Sample.proseReply))
     (lit "hello") tt tt).2
  = Normal (Some {| AIResponse.explanation := JStr (lit "x");
                    AIResponse.actionType := JStr (lit "advice");
                    AIResponse.robotData := Undefined |}).
Proof.
  refine (reply_without_robotData Sample.systemPrompt Sample.JSON_parse
            Sample.numberToString _ _ tt tt Sample.proseReply Sample.adviceJson
            Sample.adviceValue prose_reaches_request eq_refl eq_refl _ eq_refl
            eq_refl eq_refl).
  discriminate.
Defined.

Lemma fenced_content_witness :
  trimStart Sample.robotJson = Sample.robotJson
  ∧ trimEnd Sample.robotJson = Sample.robotJson
  ∧ ∀ a b, Sample.robotJson ≠ a ++ Extraction.fence ++ b.
Proof.
  exact (fenced_content_is_trimmed Sample.fencedReply Sample.robotJson eq_refl).
Defined.

Lemma brace_span_witness :
  ∃ pre mid post,
    Sample.proseReply = pre ++ Sample.adviceJson ++ post
    ∧ Sample.adviceJson = 123 :: mid ++ [125]
    ∧ (123 ∉ pre) ∧ (125 ∉ post).
Proof.
  exact (brace_span_is_outermost Sample.proseReply 123 (tail Sample.adviceJson)
           eq_refl eq_refl).
Defined.

Lemma completion_witness :
  Forall (λ d, mappable d = true)
    (JS.elements (JS.prop Sample.robotPayload "links")
     ++ JS.elements (JS.prop Sample.robotPayload "joints"))
  ∧ (∃ rd, mapRobotData Sample.numberToString Sample.robotPayload = Normal rd)
  ∨ Exists (λ d, mappable d = false)
      (JS.elements (JS.prop Sample.robotPayload "links")
       ++ JS.elements (JS.prop Sample.robotPayload "joints"))
    ∧ mapRobotData Sample.numberToString Sample.robotPayload = Throw TypeError.
Proof.
  exact (mapRobotData_completion Sample.numberToString Sample.robotPayload eq_refl).
Defined.

(** An [id] that is an object with a property [toString] of its own, alone
    or inside an array, cannot become a key: the callback throws, and so
    does the mapping of a payload that holds such a descriptor, even after
    a link has been stored. *)
Lemma self_named_id_throws :
  mapJoint Sample.numberToString ∅ Sample.selfNamedJoint = Throw TypeError
  ∧ mapJoint Sample.numberToString ∅ Sample.selfNamedInArrayJoint = Throw TypeError
  ∧ mapRobotData Sample.numberToString Sample.selfNamedPayload = Throw TypeError.
Proof. repeat split; reflexivity. Qed.

Lemma table_keys_witness :
  ∃ rd,
    mapRobotData Sample.numberToString Sample.duplicatePayload = Normal rd
    ∧ (size (RobotData.links rd)
       ≤ length (JS.elements (JS.prop Sample.duplicatePayload "links")))%nat.
Proof.
  eexists. split; [reflexivity |].
  exact (proj1 (proj2 (proj2 (table_keys_are_descriptor_ids
                                Sample.numberToString Sample.duplicatePayload _
                                eq_refl)))).
Defined.

Lemma l1_differs_from_proto : lit "l1" ≠ protoKey.
Proof. vm_compute. discriminate. Defined.

Lemma nothing_after (d' : JSValue) (k : jsstring) :
  d' ∈ @nil JSValue →
  toPropertyKey Sample.numberToString (JS.prop d' "id") ≠ Normal k.
Proof. intros H. destruct (proj1 (elem_of_nil d') H). Defined.

Lemma last_descriptor_witness :
  ∃ rd link,
    mapRobotData Sample.numberToString Sample.duplicatePayload = Normal rd
    ∧ RobotData.links rd !! lit "l1" = Some link
    ∧ mapLink Sample.numberToString ∅ Sample.secondL1
      = Normal (<[lit "l1" := link]> ∅).
Proof.
  eexists.
  destruct (proj1 (last_descriptor_wins Sample.numberToString
                     Sample.duplicatePayload _ [Sample.firstL1] [] Sample.secondL1
                     (lit "l1") eq_refl eq_refl l1_differs_from_proto
                     (fun d' => nothing_after d' _))
              eq_refl) as (link & Hlook & Hbuild).
  exists link. split; [reflexivity |]. split; [exact Hlook | exact Hbuild].
Defined.

Lemma fixed_parts_witness :
  ∃ rd,
    mapRobotData Sample.numberToString Sample.robotPayload = Normal rd
    ∧ ∀ k link, RobotData.links rd !! k = Some link → mirrorsVisual link.
Proof.
  eexists. split; [reflexivity |].
  exact (proj1 (records_have_fixed_parts Sample.numberToString
                  Sample.robotPayload _ eq_refl)).
Defined.

Lemma solid_witness :
  ∃ rd,
    mapRobotData Sample.numberToString Sample.robotPayload = Normal rd
    ∧ ∀ k link, RobotData.links rd !! k = Some link → solidLink link.
Proof.
  eexists. split; [reflexivity |].
  exact (proj2 (links_are_solid Sample.numberToString
                  Sample.robotPayload _ eq_refl)).
Defined.

Lemma settled_witness :
  ∃ rd,
    mapRobotData Sample.numberToString Sample.emptyIdJointPayload = Normal rd
    ∧ ∀ k joint, RobotData.joints rd !! k = Some joint → settledJoint joint.
Proof.
  eexists. split; [reflexivity |].
  exact (joints_are_settled Sample.numberToString
           Sample.emptyIdJointPayload _ eq_refl).
Defined.

Lemma found_by_id_witness :
  ∃ rd link,
    mapRobotData Sample.numberToString Sample.duplicatePayload = Normal rd
    ∧ RobotData.links rd !! lit "l1" = Some link
    ∧ Link.id link = JStr (lit "l1")
    ∧ Link.name link = JStr (lit "second").
Proof.
  eexists.
  destruct (proj1 (record_found_by_id Sample.numberToString
                     Sample.duplicatePayload _ [Sample.firstL1] [] Sample.secondL1
                     (lit "l1") eq_refl eq_refl l1_differs_from_proto
                     (fun d' => nothing_after d' _))
              eq_refl) as (link & Hlook & Hid & Hname).
  exists link. split; [reflexivity |]. auto.
Defined.
